(** * Bismuth Explorer: the aggregate maintenance engine (toolsdb.py) and the
      live-state synchronizer (explorebis.py), as a shallow embedding.

    Part I holds the definitions, translated function by function from the
    Python sources; Part II holds the theorems about them. *)

From Stdlib Require Import ZArith QArith String Ascii List Lia.
From stdpp Require Import base option list gmap strings sorting pretty.

Close Scope Q_scope.
Open Scope string_scope.
Open Scope Z_scope.

(** ** Python values shared by both modules *)

(** A Python [float].  Finite values are over-approximated by the rationals;
    the three special values are kept because [>] treats them specially. *)
Inductive pyfloat : Type :=
| Finite (q : Q)
| PosInf
| NegInf
| NaN.

(** [x > n] for a float [x] and an int [n]; Python compares the exact values,
    and every comparison with NaN is false. *)
Definition float_gt_int (x : pyfloat) (n : Z) : bool :=
  match x with
  | Finite q => negb (Qle_bool q (inject_Z n))
  | PosInf => true
  | NegInf => false
  | NaN => false
  end.

(** [str.lower()] on the ASCII range. *)
Definition lower_ascii (c : ascii) : ascii :=
  let n := nat_of_ascii c in
  if (65 <=? n)%nat && (n <=? 90)%nat then ascii_of_nat (n + 32) else c.

Fixpoint lower (s : string) : string :=
  match s with
  | EmptyString => EmptyString
  | String c rest => String (lower_ascii c) (lower rest)
  end.

(** Truthiness of a [str]: only the empty string is falsy. *)
Definition truthy (s : string) : bool :=
  match s with
  | EmptyString => false
  | String _ _ => true
  end.

(** Outcome of a Python call: it returns a value or raises. *)
Inductive outcome (E A : Type) : Type :=
| Returns (a : A)
| Raises (err : E).
Arguments Returns {E A} a.
Arguments Raises {E A} err.

(** * Part I.a  toolsdb.py *)

Module toolsdb.

(** A row of the ledger's [transactions] table, columns in table order.  Only
    the columns the module reads are kept; [SELECT *] puts [address] (the
    sending side; explorebis.py labels [b[2]] as "from") at index 2 and
    [recipient] ("to", [b[3]]) at index 3. *)
Record tx : Type := {
  block_height : Z;
  timestamp : Q;
  address : string;
  recipient : string;
  amount : Q;
  reward : Q
}.

Definition row_2 (row : tx) : string := address row.
Definition row_3 (row : tx) : string := recipient row.

(** The tuple [toolsp.refresh(addr, 2)] returns, indexed 0..8; indices 2 and 4
    are held as the floats that [float(record[2])], [float(record[4])] give. *)
Record record : Type := {
  record_0 : Q;            (* credits *)
  record_1 : Q;            (* debits *)
  record_2 : pyfloat;      (* rewards *)
  record_3 : Q;            (* fees *)
  record_4 : pyfloat;      (* balance *)
  record_5 : Z;            (* blatest *)
  record_6 : Z;            (* bfirst *)
  record_7 : Z;            (* blockcount *)
  record_8 : string        (* alias *)
}.

(** richlist(address TEXT PRIMARY KEY, balance REAL, alias TEXT) *)
Record rich_row : Type := {
  balance : pyfloat;
  alias : string
}.

(** minerlist(address TEXT PRIMARY KEY, blatest, bfirst, blockcount, treward, mname) *)
Record miner_row : Type := {
  blatest : Z;
  bfirst : Z;
  blockcount : Z;
  treward : pyfloat;
  mname : string
}.

(** The two tables of tools.db, keyed by their primary key. *)
Record tables : Type := {
  richlist : gmap string rich_row;
  minerlist : gmap string miner_row
}.

Definition empty_tables : tables :=
  {| richlist := ∅; minerlist := ∅ |}.

(** What a cycle can fail on. *)
Inductive error : Type :=
| LedgerError      (* sqlite3.connect(bis_root) or the query on it raises *)
| StoreError.      (* sqlite3.connect(db_path), a statement or the commit raises *)

(** Everything outside the module that one call of [updatedb] reads:
    configuration, the ledger, [toolsp], and whether the two databases can be
    used during this cycle. *)
Record env : Type := {
  bis_limit : Z;
  ledger : list tx;
  ledger_opens : bool;
  store_opens : bool;
  store_writes : bool;
  latest : Z;                          (* int(toolsp.latest()[0]) *)
  refresh : string → option record     (* toolsp.refresh(addr, 2); None: it raises *)
}.

(** [init_tools_db]: the existing file is removed, then a database with two
    empty tables is created.  [None] is a store without the tables. *)
Definition init_tools_db (e : env) (db : option tables)
  : outcome error unit * option tables :=
  let removed : option tables := None in
  if store_opens e then (Returns tt, Some empty_tables)
  else (Raises StoreError, removed).

(** [WHERE amount != 0 OR reward != 0] *)
Definition active (row : tx) : bool :=
  negb (Qeq_bool (amount row) 0) || negb (Qeq_bool (reward row) 0).

(** [gather_all_addresses]: SELECT DISTINCT recipient ... *)
Definition gather_all_addresses (conn : list tx) : list string :=
  remove_dups (map recipient (filter (λ row, active row = true) conn)).

(** [ORDER BY timestamp DESC]: [a] may come before [b]. *)
Definition newer_eq (a b : tx) : Prop :=
  Qle_bool (timestamp b) (timestamp a) = true.

#[export] Instance newer_eq_dec a b : Decision (newer_eq a b).
Proof. unfold newer_eq. apply _. Defined.

(** [SELECT * FROM transactions ORDER BY timestamp DESC LIMIT ?]; a negative
    LIMIT means no limit in SQLite. *)
Definition select_recent (conn : list tx) (limit : Z) : list tx :=
  let ordered := merge_sort newer_eq conn in
  if limit <? 0 then ordered else take (Z.to_nat limit) ordered.

Definition sinks : list string :=
  ["hypernode payouts"; "development reward"].

(** One turn of the [for row in cur] loop of [gather_delta_addresses]; the
    local names are the source's. *)
Definition delta_step (seen : gset string) (row : tx) : gset string :=
  let recipient := row_2 row in
  let seen :=
    if truthy recipient && negb (bool_decide (lower recipient ∈ sinks))
    then seen ∪ {[recipient]} else seen in
  let sender := row_3 row in
  if truthy sender then seen ∪ {[sender]} else seen.

Definition gather_delta_addresses (conn : list tx) (limit : Z) : list string :=
  elements (foldl delta_step ∅ (select_recent conn limit)).

(** [DELETE FROM t WHERE address = ?] for each address. *)
Definition delete_all {V} (addresses : list string) (t : gmap string V)
  : gmap string V :=
  foldl (λ t addr, delete addr t) t addresses.

(** [INSERT OR IGNORE INTO t VALUES ...] for each row, in order. *)
Definition insert_or_ignore {V} (rows : list (string * V)) (t : gmap string V)
  : gmap string V :=
  foldl (λ t row, match t !! row.1 with
                  | Some _ => t
                  | None => <[row.1 := row.2]> t
                  end) t rows.

(** The [for addr in addresses] loop: the rows collected for both tables. *)
Fixpoint collect_rows (e : env) (addresses : list string)
  : list (string * rich_row) * list (string * miner_row) :=
  match addresses with
  | [] => ([], [])
  | addr :: rest =>
      let '(rich_rows, miner_rows) := collect_rows e rest in
      match refresh e addr with
      | None => (rich_rows, miner_rows)
      | Some record =>
          let balance := record_4 record in
          let reward := record_2 record in
          let alias := record_8 record in
          (if float_gt_int balance (bis_limit e)
           then (addr, {| balance := balance; alias := alias |}) :: rich_rows
           else rich_rows,
           if float_gt_int reward 0
           then (addr, {| blatest := record_5 record; bfirst := record_6 record;
                          blockcount := record_7 record; treward := reward;
                          mname := alias |}) :: miner_rows
           else miner_rows)
      end
  end.

(** Step 2 of [updatedb] when every statement succeeds: the deletes (only
    when incremental), then the inserts, committed together. *)
Definition write_phase (e : env) (do_full : bool) (addresses : list string)
  (t : tables) : tables :=
  let t1 :=
    if do_full then t
    else {| richlist := delete_all addresses (richlist t);
            minerlist := delete_all addresses (minerlist t) |} in
  let '(rich_rows, miner_rows) := collect_rows e addresses in
  {| richlist := insert_or_ignore rich_rows (richlist t1);
     minerlist := insert_or_ignore miner_rows (minerlist t1) |}.

(** [block_limit = latest_block - last_block] *)
Definition block_limit (latest_block last_block : Z) : Z :=
  latest_block - last_block.

(** Step 1 of [updatedb]: [None] is the early [return False] on a window
    that is not positive. *)
Definition gather (e : env) (do_full : bool) (last_block : Z)
  : option (list string) :=
  if do_full then Some (gather_all_addresses (ledger e))
  else
    let latest_block := latest e in
    let block_limit := block_limit latest_block last_block in
    if block_limit <=? 0 then None
    else Some (gather_delta_addresses (ledger e) block_limit).

(** [updatedb(do_full, last_block)]: the value returned (or the error raised)
    and the store afterwards.  A failing statement inside the [with] block
    rolls the transaction back. *)
Definition updatedb (e : env) (do_full : bool) (last_block : Z)
  (db : option tables) : outcome error bool * option tables :=
  let '(created, db) :=
    if do_full then init_tools_db e db else (Returns tt, db) in
  match created with
  | Raises err => (Raises err, db)
  | Returns _ =>
      if negb (ledger_opens e) then (Raises LedgerError, db)
      else
        match gather e do_full last_block with
        | None => (Returns false, db)
        | Some [] => (Returns false, db)
        | Some addresses =>
            if negb (store_opens e) then (Raises StoreError, db)
            else
              match db with
              | None => (Raises StoreError, db)
              | Some t =>
                  if negb (store_writes e) then (Raises StoreError, db)
                  else (Returns true, Some (write_phase e do_full addresses t))
              end
        end
  end.

(** The margin subtracted from the stored checkpoint. *)
Definition margin : Z := 200.

(** One turn of the [while True] loop of [buildtoolsdb]: [blocks] is the
    integer in blocks.txt, [latest_here] what the loop's own call of
    [toolsp.latest()] returns.  Result: what [updatedb] did, the new content
    of blocks.txt and the store. *)
Definition buildtoolsdb_cycle (e : env) (latest_here : Z) (blocks : Z)
  (db : option tables) : outcome error bool * Z * option tables :=
  let last_blk := blocks - margin in
  let latest := latest_here in
  let blocks := latest in
  let '(r, db) := updatedb e false last_blk db in
  (r, blocks, db).

End toolsdb.

(** * Part I.b  explorebis.py *)

Module explorebis.

(** The exception classes the modelled code can meet. *)
Inductive exn : Type :=
| RequestException     (* requests.exceptions.RequestException: timeout, refused, ... *)
| JSONDecodeError      (* json.load / json.loads on text that is not JSON *)
| KeyError
| FileNotFoundError
| UnboundLocalError
| NameError
| OtherException.

(** [except requests.exceptions.RequestException] *)
Definition is_request_exception (err : exn) : bool :=
  match err with
  | RequestException => true
  | _ => false
  end.

(** A bare [except:] and [except Exception] take every class above. *)
Definition any_exception (err : exn) : bool := true.

(** A JSON file on disk, as [json.load] sees it. *)
Inductive file (A : Type) : Type :=
| Absent                (* open() raises *)
| Unparseable           (* json.load raises *)
| Holds (a : A).
Arguments Absent {A}.
Arguments Unparseable {A}.
Arguments Holds {A} a.

(** The price mapping [cmc_vals]: currency code to price. *)
Abbreviation price_map := (gmap string Q).

(** The dict written to dump_cmc.txt, also the payload of [my_info]. *)
Record cmc : Type := {
  btc : string;
  usd : string;
  fiat : string;
  toc : string;
  mess : string
}.

(** message.txt *)
Record message_file : Type := {
  secret : string;
  message : string
}.

(** The dict [statusjson] returns: the uptime and the other fields. *)
Record status (U : Type) : Type := {
  uptime : U;
  fields : list (string * string)
}.
Arguments uptime {U} s.
Arguments fields {U} s.

(** [blocklastjson] *)
Record block : Type := {
  block_height : Z;
  timestamp : string;
  recipient : string
}.

(** [current_block] and [last_block] start as the strings "1" and "0" and
    later hold the integer heights of the node. *)
Inductive block_id : Type :=
| block_str (s : string)
| block_int (n : Z).

#[export] Instance block_id_eq_dec : EqDecision block_id.
Proof. solve_decision. Defined.

(** What [socketio.emit] sends, one constructor per event name. *)
Inductive payload : Type :=
| my_info (c : cmc)
| my_status (st : status string)
| my_toast (c_toast : string)
| my_w_servers (active : string) (list_ : string)
| my_mem (mem : string)
| update (data : string)                       (* namespace /mem *)
| my_latest (height : Z) (miner diff bltime btotal bcirc : string)
| my_transactions (data : string).

Inductive level : Type := INFO | WARNING | ERROR.

(** What the process does to the outside, in order. *)
Inductive event : Type :=
| Emit (p : payload)
| Log (l : level) (text : string)
| Sleep (seconds : Z)
| NodeQuery (command : string)       (* a call into toolsp that asks the node *)
| HttpGet (url : string)             (* requests.get *)
| StartBackgroundTask.               (* socketio.start_background_task(target=main_info) *)

(** The handle [socketio.start_background_task] returns. *)
Inductive thread : Type := background_task.

(** Files, module globals, the locals of [main_info], and the trace. *)
Record state : Type := {
  price_info_txt : file price_map;
  dump_cmc_txt : file cmc;
  message_txt : file message_file;
  cmc_vals : price_map;
  cmc_thread : option thread;
  txlist50 : option string;            (* None: the name is not bound yet *)
  count : Z;
  current_block : block_id;
  last_block : block_id;
  trace : list event
}.

Definition set_price_info_txt (v : file price_map) (s : state) : state :=
  {| price_info_txt := v; dump_cmc_txt := dump_cmc_txt s;
     message_txt := message_txt s; cmc_vals := cmc_vals s;
     cmc_thread := cmc_thread s; txlist50 := txlist50 s; count := count s;
     current_block := current_block s; last_block := last_block s;
     trace := trace s |}.

Definition set_dump_cmc_txt (v : file cmc) (s : state) : state :=
  {| price_info_txt := price_info_txt s; dump_cmc_txt := v;
     message_txt := message_txt s; cmc_vals := cmc_vals s;
     cmc_thread := cmc_thread s; txlist50 := txlist50 s; count := count s;
     current_block := current_block s; last_block := last_block s;
     trace := trace s |}.

Definition set_cmc_vals (v : price_map) (s : state) : state :=
  {| price_info_txt := price_info_txt s; dump_cmc_txt := dump_cmc_txt s;
     message_txt := message_txt s; cmc_vals := v;
     cmc_thread := cmc_thread s; txlist50 := txlist50 s; count := count s;
     current_block := current_block s; last_block := last_block s;
     trace := trace s |}.

Definition set_cmc_thread (v : option thread) (s : state) : state :=
  {| price_info_txt := price_info_txt s; dump_cmc_txt := dump_cmc_txt s;
     message_txt := message_txt s; cmc_vals := cmc_vals s;
     cmc_thread := v; txlist50 := txlist50 s; count := count s;
     current_block := current_block s; last_block := last_block s;
     trace := trace s |}.

Definition set_txlist50 (v : option string) (s : state) : state :=
  {| price_info_txt := price_info_txt s; dump_cmc_txt := dump_cmc_txt s;
     message_txt := message_txt s; cmc_vals := cmc_vals s;
     cmc_thread := cmc_thread s; txlist50 := v; count := count s;
     current_block := current_block s; last_block := last_block s;
     trace := trace s |}.

Definition set_count (v : Z) (s : state) : state :=
  {| price_info_txt := price_info_txt s; dump_cmc_txt := dump_cmc_txt s;
     message_txt := message_txt s; cmc_vals := cmc_vals s;
     cmc_thread := cmc_thread s; txlist50 := txlist50 s; count := v;
     current_block := current_block s; last_block := last_block s;
     trace := trace s |}.

Definition set_current_block (v : block_id) (s : state) : state :=
  {| price_info_txt := price_info_txt s; dump_cmc_txt := dump_cmc_txt s;
     message_txt := message_txt s; cmc_vals := cmc_vals s;
     cmc_thread := cmc_thread s; txlist50 := txlist50 s; count := count s;
     current_block := v; last_block := last_block s;
     trace := trace s |}.

Definition set_last_block (v : block_id) (s : state) : state :=
  {| price_info_txt := price_info_txt s; dump_cmc_txt := dump_cmc_txt s;
     message_txt := message_txt s; cmc_vals := cmc_vals s;
     cmc_thread := cmc_thread s; txlist50 := txlist50 s; count := count s;
     current_block := current_block s; last_block := v;
     trace := trace s |}.

Definition add_event (ev : event) (s : state) : state :=
  {| price_info_txt := price_info_txt s; dump_cmc_txt := dump_cmc_txt s;
     message_txt := message_txt s; cmc_vals := cmc_vals s;
     cmc_thread := cmc_thread s; txlist50 := txlist50 s; count := count s;
     current_block := current_block s; last_block := last_block s;
     trace := (trace s ++ [ev])%list |}.

(** ** A state-and-exception monad for the Python code *)

Definition M (A : Type) : Type := state → outcome exn A * state.

Definition ret {A} (a : A) : M A := λ s, (Returns a, s).

Definition raise {A} (err : exn) : M A := λ s, (Raises err, s).

Definition bind {A B} (m : M A) (k : A → M B) : M B :=
  λ s, match m s with
       | (Returns a, s') => k a s'
       | (Raises err, s') => (Raises err, s')
       end.

Notation "'let*' x ':=' m 'in' k" := (bind m (λ x, k))
  (at level 10, x name, m at level 100, k at level 200).

(** [try: body  except <class>: handler] *)
Definition try_except {A} (body : M A) (catches : exn → bool)
  (handler : exn → M A) : M A :=
  λ s, match body s with
       | (Returns a, s') => (Returns a, s')
       | (Raises err, s') =>
           if catches err then handler err s' else (Raises err, s')
       end.

Definition get {A} (field : state → A) : M A := λ s, (Returns (field s), s).

Definition modify (f : state → state) : M unit := λ s, (Returns tt, f s).

Definition emit (p : payload) : M unit := modify (add_event (Emit p)).

Definition app_log (l : level) (text : string) : M unit :=
  modify (add_event (Log l text)).

Definition sleep (seconds : Z) : M unit := modify (add_event (Sleep seconds)).

(** A call that leaves the process: it is recorded, then it returns or
    raises as the outside answers. *)
Definition call {A} (ev : event) (answer : outcome exn A) : M A :=
  let* _ := modify (add_event ev) in
  match answer with
  | Returns a => ret a
  | Raises err => raise err
  end.

(** [with open(name) as f: json.load(f)] *)
Definition json_load {A} (f : file A) : M A :=
  match f with
  | Absent => raise FileNotFoundError
  | Unparseable => raise JSONDecodeError
  | Holds a => ret a
  end.

(** ** Configuration and the outside world *)

(** explorer.ini, and the two pure formatters of [toolsp] the code calls. *)
Record config : Type := {
  alt_curr : string;
  dev_state : bool;
  app_secret : string;
  display_time : Z → string;               (* toolsp.display_time(n, 4) *)
  mem_html : list string → string          (* toolsp.mem_html *)
}.

(** The answer of the price service to [requests.get(t, timeout=10)]. *)
Inductive http : Type :=
| http_raises (err : exn)        (* the request raises: timeout, refused *)
| http_not_json                  (* [json.loads(r.text)] raises *)
| http_json
    (prices : outcome exn (string * string * string))
                                 (* btc, usd and custom price, formatted *)
    (vals : outcome exn price_map).
                                 (* [toolsp.get_cmc_val(y)] *)

(** What the outside answers during one turn of the loop. *)
Record world : Type := {
  annget : outcome exn string;
  coingecko : http;
  xws : outcome exn (list string);                 (* the labels *)
  statusjson : outcome exn (status Z);
  mpgetjson : outcome exn (list string);
  blocklastjson : outcome exn block;
  difflastjson : outcome exn string;
  get_alias : outcome exn string;
  getcirc : outcome exn (string * string);
  listlim_html : outcome exn string                (* what [get_50] returns *)
}.

Definition coingecko_url : string :=
  "https://api.coingecko.com/api/v3/coins/bismuth".

(** ** The functions *)

Definition default_cmc_vals : price_map :=
  {[ "BTC" := (1 # 100000000)%Q; "USD" := (1 # 100)%Q; "EUR" := (1 # 100)%Q;
     "GBP" := (1 # 100)%Q; "CNY" := (1 # 100)%Q; "AUD" := (1 # 100)%Q ]}.

(** Module level, lines 139-147: load price_info.txt or fall back. *)
Definition startup : M unit :=
  try_except
    (let* v := (let* f := get price_info_txt in json_load f) in
     let* _ := modify (set_cmc_vals v) in
     app_log INFO "Price information loaded")
    any_exception
    (λ _,
     let* _ := modify (set_cmc_vals default_cmc_vals) in
     let* _ := app_log ERROR "price_info.txt has an issue or is missing.... I will try to fix" in
     modify (set_price_info_txt (Holds default_cmc_vals))).

Definition cmc_alt (message : string) : M price_map :=
  let* x := (let* f := get dump_cmc_txt in json_load f) in
  let* _ := emit (my_info {| btc := btc x; usd := usd x; fiat := fiat x;
                             toc := toc x; mess := message |}) in
  try_except
    (let* cmc_vals := (let* f := get price_info_txt in json_load f) in
     let* _ := app_log INFO "price_info.txt has been read" in
     ret cmc_vals)
    any_exception
    (λ _,
     let* _ := app_log ERROR "price_info.txt has an issue or is missing" in
     ret default_cmc_vals).

Definition get_cmc_info (w : world) (alt_curr testmess : string)
  (mystate this_dev_state : bool) : M price_map :=
  if mystate then
    try_except
      (let* y := call (HttpGet coingecko_url)
                   match coingecko w with
                   | http_raises err => Raises err
                   | http_not_json => Raises JSONDecodeError
                   | http_json prices vals => Returns (prices, vals)
                   end in
       try_except
         (let* c := match y.1 with
                    | Returns c => ret c
                    | Raises err => raise err
                    end in
          let '(c_btc, c_usd, c_cus) := c in
          let* _ := app_log INFO "Coingecko Price Thread: Updated OK" in
          let cmc := {| btc := c_btc; usd := c_usd; fiat := c_cus;
                        toc := alt_curr; mess := testmess |} in
          let* _ := emit (my_info cmc) in
          let* _ := modify (set_dump_cmc_txt (Holds cmc)) in
          let* r_cmc_vals := match y.2 with
                             | Returns v => ret v
                             | Raises err => raise err
                             end in
          let* _ := modify (set_price_info_txt (Holds r_cmc_vals)) in
          ret r_cmc_vals)
         any_exception
         (λ _,
          let* _ := app_log ERROR "Coingecko Price Thread: NOK" in
          cmc_alt testmess))
      is_request_exception
      (λ _,
       let* _ := app_log ERROR "Coingecko Price Thread: Error {}" in
       cmc_alt testmess)
  else
    let* r_cmc_vals := cmc_alt testmess in
    let* _ := if this_dev_state
              then app_log WARNING "Coingecko Price Thread: Dev Mode"
              else app_log INFO "Coingecko Price Thread: Read from file" in
    ret r_cmc_vals.

(** In the handler [st] is read, but the only statement of the [try] block
    that raises a RequestException is the one that would have bound it. *)
Definition get_status_info (c : config) (w : world) : M unit :=
  try_except
    (let* st := call (NodeQuery "statusjson") (statusjson w) in
     let w_uptime := uptime st in
     let n_up := display_time c w_uptime in
     let st := {| uptime := n_up; fields := fields st |} in
     let* _ := emit (my_status st) in
     app_log INFO "Status Thread: OK")
    is_request_exception
    (λ _,
     let st : option (status string) := None in
     let n_up := display_time c 0 in
     match st with
     | None => raise UnboundLocalError
     | Some st =>
         let st := {| uptime := n_up; fields := fields st |} in
         let* _ := emit (my_status st) in
         app_log ERROR "Status Thread: Error {}"
     end).

Definition get_block_info (w : world) (last_block : block_id) : M block_id :=
  try_except
    (let* b := call (NodeQuery "blocklastjson") (blocklastjson w) in
     let blheight := block_height b in
     if decide (block_int blheight = last_block) then
       let* _ := app_log INFO "Block Thread: Looking For New Block" in
       ret last_block
     else
       let* d := call (NodeQuery "difflastjson") (difflastjson w) in
       let bltm := timestamp b in
       let rawminer := recipient b in
       let* blminer := call (NodeQuery "aliasget") (get_alias w) in
       let blminer := if decide (blminer = "") then rawminer else blminer in
       let* x := call (NodeQuery "getcirc") (getcirc w) in
       let* _ := emit (my_latest blheight blminer d bltm x.1 x.2) in
       let* _ := app_log INFO "Block Thread: New Block Seen {}" in
       ret (block_int blheight))
    is_request_exception
    (λ _,
     let* _ := app_log ERROR "Block Thread: Error {}" in
     ret last_block).

Definition get_message_info (c : config) (w : world) : M string :=
  let* ann :=
    try_except
      (let* ann := call (NodeQuery "annget") (annget w) in
       if decide (ann ≠ "No announcement") then
         let c_toast := "Dev Team Announcement: " ++ ann in
         let* _ := emit (my_toast c_toast) in
         let* _ := app_log WARNING c_toast in
         ret (true, c_toast)
       else
         let* _ := app_log INFO "No Announcements" in
         ret (false, ""))
      is_request_exception
      (λ _,
       let* _ := app_log ERROR "Message Thread: Error {}" in
       ret (false, "")) in
  let '(n_ann, c_toast) := ann in
  let* m := (let* f := get message_txt in json_load f) in
  let my_code := secret m in
  let* this_message :=
    if decide (my_code = app_secret c) then
      let this_message := if n_ann then c_toast else message m in
      let* _ := app_log INFO "Message Checked: Code Good" in
      ret this_message
    else
      let* _ := app_log ERROR "Message Checked: Code Bad" in
      ret "" in
  ret (if dev_state c then "DEV MODE | " ++ this_message else this_message).

(** [x] is bound only when [toolsp.xws()] returned. *)
Definition get_wallet_servers (w : world) : M (list string) :=
  let* r :=
    try_except
      (let* x := call (NodeQuery "xws") (xws w) in
       let live_x := foldl (λ live_x label, live_x ++ "<p>" ++ label ++ "</p>") "" x in
       ret (Some x, live_x, pretty (length x)))
      any_exception
      (λ _, ret (None, "", "0")) in
  let '(x, live_x, w_num) := r in
  let* _ := emit (my_w_servers w_num live_x) in
  let* _ := app_log INFO "Wallet Servers Checked" in
  match x with
  | Some x => ret x
  | None => raise UnboundLocalError
  end.

Definition get_mem_tx_no (c : config) (w : world) : M unit :=
  let* r :=
    try_except
      (let* mempool := call (NodeQuery "mpgetjson") (mpgetjson w) in
       let num_tx := pretty (length mempool) in
       let* _ := app_log INFO "Number of mempool transactions checked" in
       ret (num_tx, mempool))
      any_exception
      (λ _,
       let* _ := app_log WARNING "Error checking mempool transactions" in
       ret ("0", [])) in
  let '(num_tx, mempool) := r in
  let* _ := emit (my_mem num_tx) in
  let* c_toast :=
    if decide (length mempool ≠ 0%nat) then
      let c_toast := "There are " ++ num_tx ++ " transactions in local mempool" in
      let mem_list := mem_html c mempool in
      let* _ := emit (update mem_list) in
      let* _ := emit (my_toast c_toast) in
      ret c_toast
    else
      let c_toast := "Nothing in the local mempool" in
      let mem_list := mem_html c [] in
      let* _ := emit (update mem_list) in
      ret c_toast in
  app_log INFO c_toast.

(** [get_50]: the rendering of the last 50 transactions, as a whole. *)
Definition get_50 (w : world) : M string :=
  call (NodeQuery "listlim") (listlim_html w).

(** The statements inside the [try] of the [while True] loop of [main_info]. *)
Definition main_info_body (c : config) (w : world) : M unit :=
  let* count := get count in
  let* cmc_vals :=
    if decide (count `mod` 60 = 0) then
      let* vip_mess := get_message_info c w in
      if dev_state c
      then get_cmc_info w (alt_curr c) vip_mess false (dev_state c)
      else get_cmc_info w (alt_curr c) vip_mess true (dev_state c)
    else
      let* vip_mess := get_message_info c w in
      get_cmc_info w (alt_curr c) vip_mess false (dev_state c) in
  let* _ := modify (set_cmc_vals cmc_vals) in
  let* _ :=
    if decide (count = 0 ∨ count `mod` 12 = 0) then
      let* x := get_wallet_servers w in ret tt
    else ret tt in
  let* _ := get_status_info c w in
  let* _ := get_mem_tx_no c w in
  let* current_block := (let* b := get current_block in get_block_info w b) in
  let* _ := modify (set_current_block current_block) in
  let* last_block := get last_block in
  let* _ :=
    if decide (current_block ≠ last_block) then
      let* txlist50 := get_50 w in
      let* _ := modify (set_txlist50 (Some txlist50)) in
      let* _ := emit (my_transactions txlist50) in
      let* _ := app_log INFO "Transaction List Refreshed" in
      modify (set_last_block current_block)
    else app_log INFO "No new transactions" in
  let* _ := if decide (count = 299) then modify (set_count 0)
            else modify (set_count (count + 1)) in
  sleep 10.

(** The [except Exception] clause of the loop; it ends in [continue]. *)
Definition main_info_handler (e : exn) : M unit :=
  let* _ := app_log ERROR "Error in main_info loop: {}" in
  let* _ := app_log INFO "Restarting main_info loop in 10 seconds..." in
  let* _ := modify (set_cmc_thread None) in
  sleep 10.

(** One turn of [while True]. *)
Definition main_info_turn (c : config) (w : world) : M unit :=
  try_except (main_info_body c w) any_exception main_info_handler.

(** The loop, for as many turns as the outside gives answers. *)
Fixpoint main_info_loop (c : config) (ws : list world) : M unit :=
  match ws with
  | [] => ret tt
  | w :: ws =>
      let* _ := main_info_turn c w in
      main_info_loop c ws
  end.

(** [main_info]: the locals are set, then the loop runs. *)
Definition main_info (c : config) (ws : list world) : M unit :=
  let* _ := modify (set_count 0) in
  let* _ := modify (set_current_block (block_str "1")) in
  let* _ := modify (set_last_block (block_str "0")) in
  main_info_loop c ws.

(** [test_connect], run without interruption: the status push, then the
    block guarded by [thread_lock]. *)
Definition test_connect (c : config) (w : world) : M unit :=
  let* _ := get_status_info c w in
  let* t := get cmc_thread in
  match t with
  | None =>
      let* _ := modify (add_event StartBackgroundTask) in
      let* _ := modify (set_cmc_thread (Some background_task)) in
      app_log INFO "New Connection, New Thread {}"
  | Some _ =>
      let* _ :=
        try_except
          (let* x := (let* f := get dump_cmc_txt in json_load f) in
           emit (my_info x))
          any_exception
          (λ _, app_log ERROR "Error loading cmc info: {}") in
      let* _ := app_log INFO "New Connection {}" in
      let* x :=
        try_except
          (get_wallet_servers w)
          any_exception
          (λ _,
           let* _ := app_log ERROR "Error getting wallet servers: {}" in
           ret []) in
      let* data := (let* v := get txlist50 in
                    match v with
                    | Some data => ret data
                    | None => raise NameError
                    end) in
      emit (my_transactions data)
  end.

End explorebis.

(** * Part I.b'  The start race of [test_connect] under interleaving *)

Module singleton.

(** Where one connection handler stands in [test_connect]. *)
Inductive pc : Type :=
| at_status       (* before [get_status_info()] *)
| at_lock         (* before [with thread_lock:] *)
| at_check        (* holds the lock, before [if cmc_thread is None] *)
| at_spawn        (* in the branch that starts the loop *)
| at_replay       (* in the [else] branch, the replay *)
| at_release      (* leaving the [with] block *)
| finished
| failed.         (* [get_status_info()] raised: the handler ended early *)

Record system : Type := {
  handlers : list pc;
  lock_held : bool;                               (* thread_lock *)
  cmc_thread : option explorebis.thread;
  spawned : nat;                                  (* loops started so far *)
  replayed : nat                                  (* replays done so far *)
}.

Definition initial (n : nat) : system :=
  {| handlers := replicate n at_status; lock_held := false;
     cmc_thread := None; spawned := 0; replayed := 0 |}.

(** Handler [i] does its next step; [status_ok] tells whether its
    [get_status_info()] returns.  [None]: the handler cannot move (it waits
    for the lock, it has ended, or there is no such handler). *)
Definition step (i : nat) (status_ok : bool) (σ : system) : option system :=
  match handlers σ !! i with
  | Some at_status =>
      Some {| handlers := <[i := if status_ok then at_lock else failed]> (handlers σ);
              lock_held := lock_held σ; cmc_thread := cmc_thread σ;
              spawned := spawned σ; replayed := replayed σ |}
  | Some at_lock =>
      if lock_held σ then None
      else Some {| handlers := <[i := at_check]> (handlers σ);
                   lock_held := true; cmc_thread := cmc_thread σ;
                   spawned := spawned σ; replayed := replayed σ |}
  | Some at_check =>
      Some {| handlers := <[i := match cmc_thread σ with
                                 | None => at_spawn
                                 | Some _ => at_replay
                                 end]> (handlers σ);
              lock_held := lock_held σ; cmc_thread := cmc_thread σ;
              spawned := spawned σ; replayed := replayed σ |}
  | Some at_spawn =>
      Some {| handlers := <[i := at_release]> (handlers σ);
              lock_held := lock_held σ;
              cmc_thread := Some explorebis.background_task;
              spawned := S (spawned σ); replayed := replayed σ |}
  | Some at_replay =>
      Some {| handlers := <[i := at_release]> (handlers σ);
              lock_held := lock_held σ; cmc_thread := cmc_thread σ;
              spawned := spawned σ; replayed := S (replayed σ) |}
  | Some at_release =>
      Some {| handlers := <[i := finished]> (handlers σ);
              lock_held := false; cmc_thread := cmc_thread σ;
              spawned := spawned σ; replayed := replayed σ |}
  | Some finished | Some failed | None => None
  end.

(** A schedule: which handler moves next, and how its status push fares. *)
Fixpoint run (schedule : list (nat * bool)) (σ : system) : option system :=
  match schedule with
  | [] => Some σ
  | (i, status_ok) :: rest =>
      match step i status_ok σ with
      | Some σ' => run rest σ'
      | None => None
      end
  end.

End singleton.

(** * Part I.c  Predicates the statements use *)

Module props.
Import toolsdb.

(** Every stored richlist balance is above the threshold and every stored
    minerlist reward is above zero. *)
Definition rows_ok (limit : Z) (t : tables) : Prop :=
  map_Forall (λ _ row, float_gt_int (balance row) limit = true) (richlist t) ∧
  map_Forall (λ _ row, float_gt_int (treward row) 0 = true) (minerlist t).

(** The rows of address [a] in [t] are the ones a fetch of [a] gives now. *)
Definition fresh_rows (e : env) (t : tables) (a : string) : Prop :=
  (∀ row, richlist t !! a = Some row →
     ∃ rec, refresh e a = Some rec ∧ balance row = record_4 rec ∧
            float_gt_int (record_4 rec) (bis_limit e) = true) ∧
  (∀ row, minerlist t !! a = Some row →
     ∃ rec, refresh e a = Some rec ∧ treward row = record_2 rec ∧
            float_gt_int (record_2 rec) 0 = true).

(** A failed cycle leaves the store as it was. *)
Definition retains_on_failure (do_full : bool) : Prop :=
  ∀ e last_block db err,
    (updatedb e do_full last_block db).1 = Raises err →
    (updatedb e do_full last_block db).2 = db.

(** The touched set in the spec's words: every recipient except the sink
    names, plus every sender, over the rows the query returns. *)
Definition spec_touched (conn : list tx) (window : Z) : gset string :=
  list_to_set
    (flat_map (λ row,
       ((if bool_decide (lower (recipient row) ∈ sinks) then []
         else [recipient row]) ++ [address row])%list)
     (select_recent conn window)).

(** The touched set is the one the spec describes. *)
Definition touched_as_specified : Prop :=
  ∀ conn window, 0 < window →
    list_to_set (gather_delta_addresses conn window) = spec_touched conn window.

(** The rows a touched address comes from: the value at index 2 when it is
    not a sink name, or the value at index 3; empty values are skipped. *)
Definition touches (a : string) (row : tx) : Prop :=
  truthy a = true ∧
  ((a = address row ∧ lower a ∉ sinks) ∨ a = recipient row).

End props.

(** Predicates for explorebis.py. *)
Module sync_props.
Import explorebis.

(** The events a computation adds to the trace when run from [s]. *)
Definition new_events {A} (m : M A) (s : state) : list event :=
  drop (length (trace s)) (trace (m s).2).

(** Every run of [m] relates the state before to the state after. *)
Definition respects (R : state → state → Prop) {A} (m : M A) : Prop :=
  ∀ s, R s (m s).2.

(** The trace grows, by events that all satisfy [P]. *)
Definition grows_by (P : event → Prop) (s s' : state) : Prop :=
  ∃ evs, trace s' = (trace s ++ evs)%list ∧ Forall P evs.

(** A component of the state is left as it was. *)
Definition keeps {B} (field : state → B) (s s' : state) : Prop :=
  field s' = field s.

(** The first thing [m] does is [ev]. *)
Definition starts_with (ev : event) {A} (m : M A) : Prop :=
  ∀ s, ∃ evs, trace (m s).2 = (trace s ++ ev :: evs)%list.

Definition not_http_get (ev : event) : Prop := ∀ url, ev ≠ HttpGet url.

Definition any_event (ev : event) : Prop := True.

(** From a state in [P], [m] ends with an outcome and a state in [Q]. *)
Definition hoare {A} (P : state → Prop) (m : M A)
  (Q : outcome exn A → state → Prop) : Prop :=
  ∀ s, P s → Q (m s).1 (m s).2.

(** The outcome is an exception. *)
Definition raised {A} (r : outcome exn A) : Prop := ∃ err, r = Raises err.

(** C6 as stated: a turn that fails is the last one. *)
Definition stops_after_failure : Prop :=
  ∀ c w ws s err,
    (main_info_body c w s).1 = Raises err →
    main_info_loop c (w :: ws) s = main_info_turn c w s.

(** C8 as stated: off the 60th turns the announcement is not fetched. *)
Definition message_only_every_60th : Prop :=
  ∀ c w s, count s `mod` 60 ≠ 0 →
    NodeQuery "annget" ∉ new_events (main_info_turn c w) s.

Definition supported : list string :=
  ["BTC"; "USD"; "EUR"; "GBP"; "CNY"; "AUD"].

Definition covers_supported (v : price_map) : Prop :=
  Forall (λ k, is_Some (v !! k)) supported.

(** No network: the request to the price service raises. *)
Definition offline (w : world) : Prop :=
  ∃ err, coingecko w = http_raises err.

(** The price mapping in memory and the one on disk are the defaults. *)
Definition on_defaults (s : state) : Prop :=
  cmc_vals s = default_cmc_vals ∧ price_info_txt s = Holds default_cmc_vals.

(** The two places a price mapping lives in. *)
Definition price_places (s : state) : price_map * file price_map :=
  (cmc_vals s, price_info_txt s).

End sync_props.

(** Predicates for the start race. *)
Module singleton_props.
Import singleton.

Definition in_guarded_block (p : pc) : nat :=
  match p with
  | at_check | at_spawn | at_replay | at_release => 1
  | _ => 0
  end.

Definition past_branch (p : pc) : nat :=
  match p with
  | at_release | finished => 1
  | _ => 0
  end.

Definition total (f : pc → nat) (l : list pc) : nat := sum_list (f <$> l).

(** What holds in every state the handlers can reach. *)
Record invariant (n : nat) (σ : system) : Prop := {
  inv_length : length (handlers σ) = n;
  inv_lock : total in_guarded_block (handlers σ) = if lock_held σ then 1%nat else 0%nat;
  inv_spawn : ∀ i, handlers σ !! i = Some at_spawn → cmc_thread σ = None;
  inv_replay : ∀ i, handlers σ !! i = Some at_replay → cmc_thread σ ≠ None;
  inv_slot : spawned σ = match cmc_thread σ with Some _ => 1%nat | None => 0%nat end;
  inv_empty : cmc_thread σ = None → replayed σ = 0%nat;
  inv_count : (spawned σ + replayed σ)%nat = total past_branch (handlers σ)
}.

End singleton_props.

(** * Part I.d  Concrete inputs *)

Module samples.
Import toolsdb.

Definition mk_tx (h : Z) (t : Q) (a r : string) (amt rew : Q) : tx :=
  {| block_height := h; timestamp := t; address := a; recipient := r;
     amount := amt; reward := rew |}.

Definition payout : tx := mk_tx 1 (10 # 1) "Hypernode Payouts" "alice" (5 # 1) (0 # 1).

Definition ledger0 : list tx :=
  [ payout;
    mk_tx 2 (20 # 1) "alice" "bob" (1 # 2) (0 # 1);
    mk_tx 3 (30 # 1) "Development Reward" "carol" (0 # 1) (15 # 1) ].

Definition mk_record (rewards balance : Q) (name : string) : record :=
  {| record_0 := 0 # 1; record_1 := 0 # 1; record_2 := Finite rewards;
     record_3 := 0 # 1; record_4 := Finite balance; record_5 := 3;
     record_6 := 3; record_7 := 1; record_8 := name |}.

(** alice holds 5.2, bob 0.5, carol mined 15; any other address fails. *)
Definition refresh0 (addr : string) : option record :=
  if String.eqb addr "alice" then Some (mk_record (0 # 1) (52 # 10) "")
  else if String.eqb addr "bob" then Some (mk_record (0 # 1) (1 # 2) "")
  else if String.eqb addr "carol" then Some (mk_record (15 # 1) (15 # 1) "pool")
  else None.

Definition env0 : env :=
  {| bis_limit := 1; ledger := ledger0; ledger_opens := true;
     store_opens := true; store_writes := true; latest := 1050;
     refresh := refresh0 |}.

(** The same world with the ledger database out of reach. *)
Definition env_ledger_down : env :=
  {| bis_limit := 1; ledger := ledger0; ledger_opens := false;
     store_opens := true; store_writes := true; latest := 1050;
     refresh := refresh0 |}.

(** A store left by an earlier cycle, when bob still held 7. *)
Definition tables0 : tables :=
  {| richlist := {[ "bob" := {| balance := Finite (7 # 1); alias := "" |} ]};
     minerlist := ∅ |}.

End samples.

(** Concrete inputs for explorebis.py. *)
Module sync_samples.
Import explorebis.

Definition c0 : config :=
  {| alt_curr := "GBP"; dev_state := false; app_secret := "s3cret";
     display_time := λ n, pretty n; mem_html := λ l, "" |}.

(** Every service answers. *)
Definition w_ok : world :=
  {| annget := Returns "No announcement";
     coingecko := http_json (Returns ("0.00000100", "0.050", "0.040"))
                            (Returns default_cmc_vals);
     xws := Returns ["wallet1"];
     statusjson := Returns {| uptime := 60; fields := [] |};
     mpgetjson := Returns [];
     blocklastjson := Returns {| block_height := 1050; timestamp := "now";
                                 recipient := "miner" |};
     difflastjson := Returns "100";
     get_alias := Returns "";
     getcirc := Returns ("1", "1");
     listlim_html := Returns "<tr></tr>" |}.

(** The node does not answer the status query. *)
Definition w_status_down : world :=
  {| annget := annget w_ok; coingecko := coingecko w_ok; xws := xws w_ok;
     statusjson := Raises RequestException;
     mpgetjson := mpgetjson w_ok; blocklastjson := blocklastjson w_ok;
     difflastjson := difflastjson w_ok; get_alias := get_alias w_ok;
     getcirc := getcirc w_ok; listlim_html := listlim_html w_ok |}.

(** The price service times out. *)
Definition w_timeout : world :=
  {| annget := annget w_ok; coingecko := http_raises RequestException;
     xws := xws w_ok; statusjson := statusjson w_ok;
     mpgetjson := mpgetjson w_ok; blocklastjson := blocklastjson w_ok;
     difflastjson := difflastjson w_ok; get_alias := get_alias w_ok;
     getcirc := getcirc w_ok; listlim_html := listlim_html w_ok |}.

Definition persisted : cmc :=
  {| btc := "0.00000090"; usd := "0.045"; fiat := "0.036"; toc := "GBP";
     mess := "old" |}.

(** A process whose loop is at turn [n], with files from earlier turns. *)
Definition at_turn (n : Z) : state :=
  {| price_info_txt := Holds default_cmc_vals; dump_cmc_txt := Holds persisted;
     message_txt := Holds {| secret := "s3cret"; message := "hello" |};
     cmc_vals := default_cmc_vals; cmc_thread := Some background_task;
     txlist50 := None; count := n; current_block := block_str "1";
     last_block := block_str "0"; trace := [] |}.

(** A first start: no file has been written yet. *)
Definition fresh : state :=
  {| price_info_txt := Absent; dump_cmc_txt := Absent;
     message_txt := Absent; cmc_vals := ∅; cmc_thread := None;
     txlist50 := None; count := 0; current_block := block_str "1";
     last_block := block_str "0"; trace := [] |}.

End sync_samples.

(** Three connections arriving together: all push the status, then handler
    1 gets the lock first, then 0, then 2. *)
Module singleton_samples.

Definition burst : list (nat * bool) :=
  [(0, true); (1, true); (2, true); (1, true); (1, true); (1, true);
   (1, true); (0, true); (0, true); (0, true); (0, true); (2, true);
   (2, true); (2, true); (2, true)]%nat.

End singleton_samples.

(** * Part I.e  The rest of toolsdb.py *)

Module toolsdb_run.
Import toolsdb.

(** The first-run branch of [buildtoolsdb], taken when blocks.txt does not
    exist: the latest height is written and a full update follows.  The call
    is [updatedb(do_full=True)], whose [last_block] is not read. *)
Definition buildtoolsdb_first_run (e : env) (latest_here : Z)
  (db : option tables) : outcome error bool * Z * option tables :=
  let latest := latest_here in
  let blocks := latest in
  let '(r, db) := updatedb e true 0 db in
  (r, blocks, db).

(** The [while True] loop of [buildtoolsdb], for as many turns as there are
    answers from outside; nothing catches what [updatedb] raises, so the
    first exception ends the loop. *)
Fixpoint buildtoolsdb_loop (turns : list (env * Z)) (blocks : Z)
  (db : option tables) : outcome error unit * Z * option tables :=
  match turns with
  | [] => (Returns tt, blocks, db)
  | (e, latest_here) :: rest =>
      match buildtoolsdb_cycle e latest_here blocks db with
      | (Raises err, blocks, db) => (Raises err, blocks, db)
      | (Returns _, blocks, db) => buildtoolsdb_loop rest blocks db
      end
  end.

(** [buildtoolsdb]: [blocks_txt] is [None] when the file does not exist. *)
Definition buildtoolsdb (first : env * Z) (turns : list (env * Z))
  (blocks_txt : option Z) (db : option tables)
  : outcome error unit * Z * option tables :=
  match blocks_txt with
  | None =>
      match buildtoolsdb_first_run first.1 first.2 db with
      | (Raises err, blocks, db) => (Raises err, blocks, db)
      | (Returns _, blocks, db) => buildtoolsdb_loop turns blocks db
      end
  | Some blocks => buildtoolsdb_loop turns blocks db
  end.

End toolsdb_run.

Module toolsdb_props.
Import toolsdb.

(** The richlist row a fetch of [k] gives now, if it gives one. *)
Definition rich_row_of (e : env) (k : string) : option rich_row :=
  match refresh e k with
  | Some rec =>
      if float_gt_int (record_4 rec) (bis_limit e)
      then Some {| balance := record_4 rec; alias := record_8 rec |}
      else None
  | None => None
  end.

(** The minerlist row a fetch of [k] gives now, if it gives one. *)
Definition miner_row_of (e : env) (k : string) : option miner_row :=
  match refresh e k with
  | Some rec =>
      if float_gt_int (record_2 rec) 0
      then Some {| blatest := record_5 rec; bfirst := record_6 rec;
                   blockcount := record_7 rec; treward := record_2 rec;
                   mname := record_8 rec |}
      else None
  | None => None
  end.

(** The value of the first row with key [k]. *)
Fixpoint first_row {V} (k : string) (rows : list (string * V)) : option V :=
  match rows with
  | [] => None
  | row :: rest => if decide (row.1 = k) then Some row.2 else first_row k rest
  end.

End toolsdb_props.

(** * Part I.f  The rest of explorebis.py that is modelled *)

Module explorebis_pages.
Import explorebis.

(** [s.replace(old, new)] for a one-character [old]. *)
Fixpoint replace_char (old : ascii) (new : string) (s : string) : string :=
  match s with
  | EmptyString => EmptyString
  | String ch rest =>
      if Ascii.eqb ch old then new ++ replace_char old new rest
      else String ch (replace_char old new rest)
  end.

Definition escape_html (s : string) : string :=
  replace_char ">" "&gt;" (replace_char "<" "&lt;" (replace_char "+" "%2B" s)).

(** [address[:5]] and [address[-5:]] *)
Definition first5 (s : string) : string := substring 0 5 s.
Definition last5 (s : string) : string := substring (String.length s - 5) 5 s.

(** The two float formats of the rich list, ["{:.8f}"] and ["{:.2f}"]. *)
Record formats : Type := {
  fmt8 : Q → string;
  fmt2 : Q → string
}.

(** A row of [all]: address, balance, alias. *)
Definition rich_tuple : Type := string * Q * string.

(** The locals [rank] .. [bal_curr] the loops of [rich_html] and
    [rich_data] assign, also the dict [rich_data] appends. *)
Record rich_cells : Type := {
  rank : string;
  address : string;
  address_d : string;
  alias : string;
  bal_bis : string;
  bal_curr : string
}.

Definition zero_amount (f : formats) (r : rich_tuple) : bool :=
  let amt := fmt8 f r.1.2 in
  String.eqb amt "0.00000000" || String.eqb amt "-0.00000000".

(** The [else] branch of both loops: the assignments at rank [i]. *)
Definition cells_of (f : formats) (c : Q) (i : nat) (r : rich_tuple) : rich_cells :=
  let address := r.1.1 in
  {| rank := pretty i;
     address := address;
     address_d := first5 address ++ "...." ++ last5 address;
     alias := r.2;
     bal_bis := fmt8 f r.1.2;
     bal_curr := fmt2 f (r.1.2 * c)%Q |}.

(** [rich_data]: [i] is the loop counter. *)
Fixpoint rich_data_from (f : formats) (a : list rich_tuple) (c : Q) (i : nat)
  : list rich_cells :=
  match a with
  | [] => []
  | r :: rest =>
      if zero_amount f r then rich_data_from f rest c i
      else cells_of f c i r :: rich_data_from f rest c (S i)
  end.

Definition rich_data (f : formats) (a : list rich_tuple) (c : Q) : list rich_cells :=
  rich_data_from f a c 1.

(** The double quote and the line feed. *)
Definition dq : string := String (ascii_of_nat 34) EmptyString.
Definition nl : string := String (ascii_of_nat 10) EmptyString.

(** The two strings [rich_html] appends for a row. *)
Definition row_html (l : rich_cells) : string :=
  "<tr><th scope=" ++ dq ++ "row" ++ dq ++ "> " ++ rank l ++ " </th>" ++ nl ++
  "<td><span data-toggle=" ++ dq ++ "tooltip" ++ dq ++ " title=" ++ dq ++
  address l ++ " : Left Click to Copy" ++ dq ++ " onclick=" ++ dq ++
  "copyToClipboard(&quot;" ++ address l ++ "&quot;)" ++ dq ++ ">" ++
  address_d l ++ "</span></td><td>" ++ alias l ++ "</td><td>" ++ bal_bis l ++
  "</td><td>" ++ bal_curr l ++ "</td></tr>".

(** [rich_html]: the locals are bound only once a row with a non-zero
    amount was met; the two appends and [i += 1] are done for every row. *)
Fixpoint rich_html_from (f : formats) (a : list rich_tuple) (c : Q) (i : nat)
  (locals : option rich_cells) (send_back : string) : outcome exn string :=
  match a with
  | [] => Returns send_back
  | r :: rest =>
      let locals := if zero_amount f r then locals else Some (cells_of f c i r) in
      match locals with
      | None => Raises UnboundLocalError
      | Some l => rich_html_from f rest c (S i) locals (send_back ++ row_html l)
      end
  end.

Definition rich_html (f : formats) (a : list rich_tuple) (c : Q) : outcome exn string :=
  rich_html_from f a c 1 None "".

(** [get_alias_display] *)
Definition get_alias_display (alias : string) : string :=
  if truthy alias then alias else "None found".

(** [mem_connect], the connect handler of the /mem namespace. *)
Definition mem_connect (c : config) (w : world) : M unit :=
  let* _ := get_mem_tx_no c w in
  app_log INFO "Mempool client connected {}".

End explorebis_pages.

Module pages_props.
Import explorebis_pages.

(** The character [ch] occurs in [s]. *)
Fixpoint has_char (ch : ascii) (s : string) : bool :=
  match s with
  | EmptyString => false
  | String x rest => Ascii.eqb x ch || has_char ch rest
  end.

(** The strings of a list, one after the other. *)
Definition join (l : list string) : string := foldr String.append "" l.

Definition nonzero (f : formats) (r : rich_tuple) : Prop := zero_amount f r = false.

#[export] Instance nonzero_dec f r : Decision (nonzero f r).
Proof. unfold nonzero. apply _. Defined.

End pages_props.

Module pages_samples.
Import explorebis_pages.

(** A stand-in for the two float formats: only zero is told apart. *)
Definition f0 : formats :=
  {| fmt8 := λ q, if Qeq_bool q 0 then "0.00000000" else "5.20000000";
     fmt2 := λ q, if Qeq_bool q 0 then "0.00" else "5.20" |}.

Definition rows0 : list rich_tuple :=
  [("4edadac9093d9326ee4b17f869b14f1a2534f96f9c5d7b48dc9acaed", (52 # 10)%Q, "dev")].

End pages_samples.

Module sync_more_samples.
Import explorebis sync_samples.

(** A loop that has already seen block 1050 and built the list. *)
Definition steady : state :=
  {| price_info_txt := Holds default_cmc_vals; dump_cmc_txt := Holds persisted;
     message_txt := Holds {| secret := "s3cret"; message := "hello" |};
     cmc_vals := default_cmc_vals; cmc_thread := Some background_task;
     txlist50 := Some "<tr></tr>"; count := 1;
     current_block := block_int 1050; last_block := block_int 1050;
     trace := [] |}.

(** The same site after its secret was changed; message.txt still holds
    the old one. *)
Definition c_rotated : config :=
  {| alt_curr := alt_curr c0; dev_state := true; app_secret := "n3w";
     display_time := display_time c0; mem_html := mem_html c0 |}.

(** The wallet servers cannot be listed. *)
Definition w_xws_down : world :=
  {| annget := annget w_ok; coingecko := coingecko w_ok;
     xws := Raises OtherException; statusjson := statusjson w_ok;
     mpgetjson := mpgetjson w_ok; blocklastjson := blocklastjson w_ok;
     difflastjson := difflastjson w_ok; get_alias := get_alias w_ok;
     getcirc := getcirc w_ok; listlim_html := listlim_html w_ok |}.

End sync_more_samples.

Module sync_more_props.
Import explorebis sync_props.

(** Two relations at once. *)
Definition both (R1 R2 : state → state → Prop) (s s' : state) : Prop :=
  R1 s s' ∧ R2 s s'.

(** The two block variables of [main_info]. *)
Definition block_pair (s : state) : block_id * block_id :=
  (current_block s, last_block s).

(** Events that tell of a new block: [my_latest] and [my_transactions]. *)
Definition block_event (ev : event) : bool :=
  match ev with
  | Emit (my_latest _ _ _ _ _ _) | Emit (my_transactions _) => true
  | _ => false
  end.

(** Events of the message step, the price step and the failure handler. *)
Definition early_event (ev : event) : bool :=
  match ev with
  | NodeQuery command => String.eqb command "annget"
  | Emit (my_toast _) => true
  | Emit _ => false
  | StartBackgroundTask => false
  | Log _ _ | Sleep _ | HttpGet _ => true
  end.

(** The query for the node status. *)
Definition status_query (ev : event) : bool :=
  match ev with
  | NodeQuery command => String.eqb command "statusjson"
  | _ => false
  end.

Definition spawn_event (ev : event) : bool :=
  match ev with
  | StartBackgroundTask => true
  | _ => false
  end.

(** dump_cmc.txt cannot be loaded. *)
Definition no_dump (s : state) : Prop := ∀ x, dump_cmc_txt s ≠ Holds x.

(** The price service gives no prices that can be read. *)
Definition no_quote (w : world) : Prop :=
  ∀ prices vals, coingecko w ≠ http_json (Returns prices) vals.

(** The files and globals the price step can write. *)
Definition price_store (s : state) : file cmc * file price_map * price_map :=
  (dump_cmc_txt s, price_info_txt s, cmc_vals s).

(** The node reports the height [h], when it reports one. *)
Definition reports_height (h : Z) (w : world) : Prop :=
  ∀ b, blocklastjson w = Returns b → block_height b = h.

End sync_more_props.

Module singleton_more_props.
Import singleton.

(** The steps a handler still has before it ends. *)
Definition remaining (p : pc) : nat :=
  match p with
  | at_status => 5
  | at_lock => 4
  | at_check => 3
  | at_spawn | at_replay => 2
  | at_release => 1
  | finished | failed => 0
  end.

End singleton_more_props.

(** * Part II.a  Facts about toolsdb.py *)

Section toolsdb_facts.
Import toolsdb props samples.

Lemma lookup_delete_all_in {V} (addresses : list string) (t : gmap string V) k :
  k ∈ addresses → delete_all addresses t !! k = None.
Proof.
  unfold delete_all. revert t.
  induction addresses as [|a l IH] using rev_ind; intros t Hk.
  - by apply elem_of_nil in Hk.
  - rewrite foldl_app. simpl. destruct (decide (a = k)) as [->|Hne].
    + apply lookup_delete_eq.
    + rewrite lookup_delete_ne by done. apply IH.
      apply elem_of_app in Hk as [Hk|Hk]; [done|].
      apply list_elem_of_singleton in Hk. congruence.
Qed.

Lemma lookup_delete_all_notin {V} (addresses : list string) (t : gmap string V) k :
  k ∉ addresses → delete_all addresses t !! k = t !! k.
Proof.
  unfold delete_all. revert t.
  induction addresses as [|a l IH]; intros t Hk; [done|].
  simpl. rewrite IH.
  - apply lookup_delete_ne. intros ->. apply Hk. left.
  - intros Hin. apply Hk. by right.
Qed.

Lemma lookup_insert_or_ignore_notin {V} (rows : list (string * V)) t k :
  k ∉ rows.*1 → insert_or_ignore rows t !! k = t !! k.
Proof.
  unfold insert_or_ignore. revert t.
  induction rows as [|[a v] rows IH]; intros t Hk; [done|].
  simpl in *. rewrite IH.
  - destruct (t !! a); [done|]. apply lookup_insert_ne.
    intros ->. apply Hk. left.
  - intros Hin. apply Hk. by right.
Qed.

Lemma lookup_insert_or_ignore_Some {V} (rows : list (string * V)) t k v :
  insert_or_ignore rows t !! k = Some v → t !! k = Some v ∨ (k, v) ∈ rows.
Proof.
  unfold insert_or_ignore. revert t.
  induction rows as [|[a w] rows IH]; intros t Hk; [by left|].
  simpl in *. apply IH in Hk as [Hk|Hk]; [|right; by right].
  destruct (t !! a) eqn:Ha; [by left|].
  destruct (decide (a = k)) as [->|Hne].
  - rewrite lookup_insert_eq in Hk. injection Hk as ->. right. left.
  - rewrite lookup_insert_ne in Hk by done. by left.
Qed.

Lemma collect_rows_rich e addresses a row :
  (a, row) ∈ (collect_rows e addresses).1 →
  a ∈ addresses ∧
  ∃ rec, refresh e a = Some rec ∧
         row = {| balance := record_4 rec; alias := record_8 rec |} ∧
         float_gt_int (record_4 rec) (bis_limit e) = true.
Proof.
  induction addresses as [|addr rest IH]; simpl.
  - intros H. by apply elem_of_nil in H.
  - destruct (collect_rows e rest) as [rich miner] eqn:Hc. simpl in IH.
    destruct (refresh e addr) as [rec|] eqn:Hr; simpl.
    + destruct (float_gt_int (record_4 rec) (bis_limit e)) eqn:Hgt.
      * intros [Heq|Hin]%elem_of_cons.
        -- injection Heq as -> ->. split; [left|]. eauto.
        -- destruct (IH Hin) as [? ?]. split; [by right|done].
      * intros Hin. destruct (IH Hin) as [? ?]. split; [by right|done].
    + intros Hin. destruct (IH Hin) as [? ?]. split; [by right|done].
Qed.

Lemma collect_rows_miner e addresses a row :
  (a, row) ∈ (collect_rows e addresses).2 →
  a ∈ addresses ∧
  ∃ rec, refresh e a = Some rec ∧
         treward row = record_2 rec ∧
         float_gt_int (record_2 rec) 0 = true.
Proof.
  induction addresses as [|addr rest IH]; simpl.
  - intros H. by apply elem_of_nil in H.
  - destruct (collect_rows e rest) as [rich miner] eqn:Hc. simpl in IH.
    destruct (refresh e addr) as [rec|] eqn:Hr; simpl.
    + destruct (float_gt_int (record_2 rec) 0) eqn:Hgt.
      * intros [Heq|Hin]%elem_of_cons.
        -- injection Heq as -> ->. split; [left|]. eauto.
        -- destruct (IH Hin) as [? ?]. split; [by right|done].
      * intros Hin. destruct (IH Hin) as [? ?]. split; [by right|done].
    + intros Hin. destruct (IH Hin) as [? ?]. split; [by right|done].
Qed.

Lemma collect_rows_keys e addresses k :
  (k ∈ (collect_rows e addresses).1.*1 → k ∈ addresses) ∧
  (k ∈ (collect_rows e addresses).2.*1 → k ∈ addresses).
Proof.
  split; intros ([a row] & -> & Hin)%list_elem_of_fmap; simpl.
  - by apply collect_rows_rich in Hin as [? _].
  - by apply collect_rows_miner in Hin as [? _].
Qed.

Lemma lookup_delete_all_Some {V} (addresses : list string) (t : gmap string V) k v :
  delete_all addresses t !! k = Some v → t !! k = Some v ∧ k ∉ addresses.
Proof.
  intros H. destruct (decide (k ∈ addresses)) as [Hin|Hnin].
  - by rewrite lookup_delete_all_in in H.
  - by rewrite lookup_delete_all_notin in H.
Qed.

Lemma write_phase_lookup_rich e do_full addresses t a row :
  richlist (write_phase e do_full addresses t) !! a = Some row →
  (richlist t !! a = Some row ∧ (do_full = false → a ∉ addresses)) ∨
  (a, row) ∈ (collect_rows e addresses).1.
Proof.
  unfold write_phase. destruct (collect_rows e addresses) as [rich miner].
  simpl. intros [H|H]%lookup_insert_or_ignore_Some; [left|by right].
  destruct do_full; simpl in H; [done|].
  apply lookup_delete_all_Some in H as [? ?]. done.
Qed.

Lemma write_phase_lookup_miner e do_full addresses t a row :
  minerlist (write_phase e do_full addresses t) !! a = Some row →
  (minerlist t !! a = Some row ∧ (do_full = false → a ∉ addresses)) ∨
  (a, row) ∈ (collect_rows e addresses).2.
Proof.
  unfold write_phase. destruct (collect_rows e addresses) as [rich miner].
  simpl. intros [H|H]%lookup_insert_or_ignore_Some; [left|by right].
  destruct do_full; simpl in H; [done|].
  apply lookup_delete_all_Some in H as [? ?]. done.
Qed.

Lemma write_phase_rows_ok e do_full addresses t :
  rows_ok (bis_limit e) t → rows_ok (bis_limit e) (write_phase e do_full addresses t).
Proof.
  intros [Hr Hm]. split; apply map_Forall_lookup; intros a row Hl.
  - apply write_phase_lookup_rich in Hl as [[Hl _]|Hl].
    + by apply (map_Forall_lookup_1 _ _ _ _ Hr Hl).
    + apply collect_rows_rich in Hl as (_ & rec & _ & -> & Hgt). done.
  - apply write_phase_lookup_miner in Hl as [[Hl _]|Hl].
    + by apply (map_Forall_lookup_1 _ _ _ _ Hm Hl).
    + apply collect_rows_miner in Hl as (_ & rec & _ & -> & Hgt). done.
Qed.

Lemma rows_ok_empty limit : rows_ok limit empty_tables.
Proof. split; apply map_Forall_empty. Qed.

Lemma write_phase_fresh e do_full addresses t a :
  (do_full = true → t = empty_tables) → a ∈ addresses →
  fresh_rows e (write_phase e do_full addresses t) a.
Proof.
  intros Hfull Hin. split; intros row Hl.
  - apply write_phase_lookup_rich in Hl as [[Hl Hn]|Hl].
    + destruct do_full; [by rewrite Hfull in Hl|by destruct Hn].
    + apply collect_rows_rich in Hl as (_ & rec & ? & -> & ?). eauto.
  - apply write_phase_lookup_miner in Hl as [[Hl Hn]|Hl].
    + destruct do_full; [by rewrite Hfull in Hl|by destruct Hn].
    + apply collect_rows_miner in Hl as (_ & rec & ? & ? & ?). eauto.
Qed.

Lemma delete_insert_delete {V} addresses (rows : list (string * V)) t :
  (∀ k, k ∈ rows.*1 → k ∈ addresses) →
  delete_all addresses (insert_or_ignore rows (delete_all addresses t))
  = delete_all addresses t.
Proof.
  intros Hkeys. apply map_eq. intros k.
  destruct (decide (k ∈ addresses)) as [Hin|Hnin].
  - by rewrite !lookup_delete_all_in.
  - rewrite lookup_delete_all_notin by done.
    apply lookup_insert_or_ignore_notin. intros Hk. by apply Hnin, Hkeys.
Qed.

Lemma write_phase_idempotent e addresses t :
  write_phase e false addresses (write_phase e false addresses t)
  = write_phase e false addresses t.
Proof.
  unfold write_phase.
  pose proof (λ k, proj1 (collect_rows_keys e addresses k)) as Hrich.
  pose proof (λ k, proj2 (collect_rows_keys e addresses k)) as Hminer.
  destruct (collect_rows e addresses) as [rich miner]. simpl in *.
  by rewrite !delete_insert_delete.
Qed.

(** C1. After a refresh cycle, full or incremental, every richlist row holds
    a balance strictly above the threshold and every minerlist row a reward
    strictly above zero; an incremental cycle needs this of the tables it
    starts from, a full one of nothing.  When the cycle completes, the rows
    of every processed address are the ones fetched in this cycle. *)
Theorem updatedb_rows_above_threshold e do_full last_block db t' :
  (do_full = false → ∀ t, db = Some t → rows_ok (bis_limit e) t) →
  (updatedb e do_full last_block db).2 = Some t' →
  rows_ok (bis_limit e) t' ∧
  ∀ addresses a,
    (updatedb e do_full last_block db).1 = Returns true →
    gather e do_full last_block = Some addresses →
    a ∈ addresses → fresh_rows e t' a.
Proof.
  intros Hinv. unfold updatedb, init_tools_db.
  assert (Hstart : ∀ t, (if do_full then Some empty_tables else db) = Some t →
            rows_ok (bis_limit e) t ∧ (do_full = true → t = empty_tables)).
  { intros t Ht. destruct do_full.
    - injection Ht as <-. split; [apply rows_ok_empty|done].
    - split; [by apply Hinv|done]. }
  destruct do_full; cbn [fst snd negb].
  - destruct (store_opens e) eqn:Hso; cbn [fst snd negb]; [|done].
    destruct (ledger_opens e); cbn [fst snd negb].
    2:{ intros [= <-]. split; [apply rows_ok_empty|done]. }
    destruct (gather e true last_block) as [[|a0 l]|] eqn:Hg; cbn [fst snd negb].
    1,3:(intros [= <-]; split; [apply rows_ok_empty|done]).
    destruct (store_writes e); cbn [fst snd negb].
    2:{ intros [= <-]. split; [apply rows_ok_empty|done]. }
    intros [= <-]. split.
    + apply write_phase_rows_ok, rows_ok_empty.
    + intros addresses a _ [= <-] Ha. by apply write_phase_fresh.
  - destruct (ledger_opens e); cbn [fst snd negb].
    2:{ intros ->. split; [by apply Hinv|done]. }
    destruct (gather e false last_block) as [[|a0 l]|] eqn:Hg; cbn [fst snd negb].
    1,3:(intros ->; split; [by apply Hinv|done]).
    destruct (store_opens e); cbn [fst snd negb].
    2:{ intros ->. split; [by apply Hinv|done]. }
    destruct db as [t|]; [|done].
    destruct (store_writes e); cbn [fst snd negb].
    2:{ intros [= <-]. split; [by apply Hinv|done]. }
    intros [= <-]. split.
    + apply write_phase_rows_ok. by apply Hinv.
    + intros addresses a _ [= <-] Ha. by apply write_phase_fresh.
Qed.

Lemma updatedb_rows_above_threshold_witness :
  ∃ t', (updatedb env0 false 800 (Some tables0)).2 = Some t' ∧
        rows_ok 1 t' ∧ richlist t' !! "bob" = None.
Proof.
  eexists. split; [vm_compute; reflexivity|]. split; [|vm_compute; reflexivity].
  apply (updatedb_rows_above_threshold env0 false 800 (Some tables0)).
  - intros _ t [= <-]. split; apply (bool_decide_unpack _); vm_compute; exact I.
  - vm_compute. reflexivity.
Defined.




(** C3. Running the same incremental refresh a second time, on the store the
    first run left and against the same ledger, returns the same value and
    leaves the same richlist and minerlist as the first run did; and for any
    list of touched addresses, doing the deletes and inserts twice leaves
    the tables the first round left. *)
Theorem updatedb_incremental_idempotent e last_block db :
  updatedb e false last_block (updatedb e false last_block db).2
  = updatedb e false last_block db ∧
  ∀ addresses t,
    write_phase e false addresses (write_phase e false addresses t)
    = write_phase e false addresses t.
Proof.
  split; [|apply write_phase_idempotent].
  unfold updatedb. cbn [fst snd negb].
  destruct (ledger_opens e); cbn [fst snd negb]; [|done].
  destruct (gather e false last_block) as [[|a0 l]|]; cbn [fst snd negb];
    [done| |done].
  destruct (store_opens e); cbn [fst snd negb]; [|done].
  destruct db as [t|]; [|done].
  destruct (store_writes e); cbn [fst snd negb]; [|done].
  by rewrite write_phase_idempotent.
Qed.



#[local] Instance newer_eq_total : Total newer_eq.
Proof.
  intros a b. unfold newer_eq. rewrite !Qle_bool_iff.
  destruct (Qlt_le_dec (timestamp a) (timestamp b)) as [H|H].
  - right. by apply Qlt_le_weak.
  - by left.
Qed.

Lemma elem_of_guarded_add (b : bool) (seen : gset string) x a :
  a ∈ (if b then seen ∪ {[x]} else seen) ↔ a ∈ seen ∨ (b = true ∧ a = x).
Proof.
  destruct b; [rewrite elem_of_union, elem_of_singleton|]; split.
  - intros [?|?]; [by left|by right].
  - intros [?|[_ ?]]; [by left|by right].
  - by left.
  - intros [?|[? _]]; done.
Qed.

Lemma elem_of_delta_step seen row a :
  a ∈ delta_step seen row ↔ a ∈ seen ∨ touches a row.
Proof.
  unfold delta_step, touches, row_2, row_3.
  rewrite !elem_of_guarded_add, andb_true_iff, negb_true_iff,
    bool_decide_eq_false.
  split.
  - intros [[?|[[Ht Hs] ->]]|[Ht ->]].
    + by left.
    + right. split; [done|]. by left.
    + right. split; [done|]. by right.
  - intros [?|[Ht [ [-> Hs] | -> ]]].
    + left. by left.
    + left. by right.
    + by right.
Qed.

Lemma elem_of_foldl_delta_step rows seen a :
  a ∈ foldl delta_step seen rows ↔
  a ∈ seen ∨ ∃ row, row ∈ rows ∧ touches a row.
Proof.
  revert seen. induction rows as [|r rows IH]; intros seen; simpl.
  - split; [by left|].
    intros [?|(row & Hin & _)]; [done|by apply elem_of_nil in Hin].
  - rewrite IH, elem_of_delta_step. split.
    + intros [[?|?]|(row & ? & ?)].
      * by left.
      * right. exists r. split; [left|done].
      * right. exists row. split; [by right|done].
    + intros [?|(row & [->|Hin]%elem_of_cons & ?)].
      * left. by left.
      * left. by right.
      * right. eauto.
Qed.

(** C9, as stated, fails: of a payout sent by "Hypernode Payouts" to alice
    the scan keeps alice only, while the spec's set also holds the sender. *)
Lemma touched_set_differs : ¬ touched_as_specified.
Proof.
  intros H. specialize (H [payout] 1 ltac:(lia)).
  apply (f_equal (λ X : gset string, bool_decide ("Hypernode Payouts" ∈ X))) in H.
  vm_compute in H. discriminate H.
Qed.

(** C9, amended.  For a positive window W the touched addresses are exactly
    the non-empty values found in the first W rows of the ledger ordered by
    timestamp, newest first: the value of column 2 (the sending address)
    unless its lower-cased form is one of the two sink names, and the value
    of column 3 (the recipient); the result lists each address once. *)
Theorem gather_delta_addresses_touched conn window :
  0 < window →
  (∀ a, a ∈ gather_delta_addresses conn window ↔
        ∃ row, row ∈ take (Z.to_nat window) (merge_sort newer_eq conn) ∧
               touches a row) ∧
  NoDup (gather_delta_addresses conn window) ∧
  Sorted newer_eq (merge_sort newer_eq conn) ∧
  merge_sort newer_eq conn ≡ₚ conn.
Proof.
  intros Hw. unfold gather_delta_addresses, select_recent.
  destruct (Z.ltb_spec window 0) as [?|_]; [lia|].
  split; [|split; [|split]].
  - intros a. rewrite elem_of_elements, elem_of_foldl_delta_step.
    split; [|by right]. intros [Hin|?]; [|done]. by apply elem_of_empty in Hin.
  - apply NoDup_elements.
  - apply Sorted_merge_sort. apply _.
  - apply merge_sort_Permutation.
Qed.

Lemma gather_delta_addresses_touched_witness :
  "carol" ∈ gather_delta_addresses ledger0 1 ∧
  NoDup (gather_delta_addresses ledger0 1).
Proof.
  destruct (gather_delta_addresses_touched ledger0 1) as (H1 & H2 & _); [lia|].
  split; [|exact H2]. apply H1.
  exists (mk_tx 3 (30 # 1) "Development Reward" "carol" (0 # 1) (15 # 1)).
  split; [vm_compute; left|]. split; [reflexivity|right; reflexivity].
Defined.

End toolsdb_facts.

(** * Part II.b  Facts about explorebis.py *)

Section monad_facts.
Import explorebis sync_props.

Context (R : state → state → Prop) `{!Reflexive R} `{!Transitive R}.

Lemma respects_ret {A} (a : A) : respects R (ret a).
Proof. intros s. simpl. reflexivity. Qed.

Lemma respects_raise {A} err : respects R (@raise A err).
Proof. intros s. simpl. reflexivity. Qed.

Lemma respects_get {A} (field : state → A) : respects R (get field).
Proof. intros s. simpl. reflexivity. Qed.

Lemma respects_modify f : (∀ s, R s (f s)) → respects R (modify f).
Proof. intros H s. apply H. Qed.

Lemma respects_bind {A B} (m : M A) (k : A → M B) :
  respects R m → (∀ a, respects R (k a)) → respects R (bind m k).
Proof.
  intros Hm Hk s. unfold bind. specialize (Hm s).
  destruct (m s) as [[a|err] s']; simpl in *; [|done].
  etrans; [exact Hm|apply Hk].
Qed.

Lemma respects_try {A} (body : M A) catches handler :
  respects R body → (∀ err, respects R (handler err)) →
  respects R (try_except body catches handler).
Proof.
  intros Hb Hh s. unfold try_except. specialize (Hb s).
  destruct (body s) as [[a|err] s']; simpl in *; [done|].
  destruct (catches err); [|done].
  etrans; [exact Hb|apply Hh].
Qed.

Lemma respects_json_load {A} (f : file A) : respects R (json_load f).
Proof. destruct f; [apply respects_raise..|apply respects_ret]. Qed.

Lemma respects_call {A} ev (answer : outcome exn A) :
  (∀ s, R s (add_event ev s)) → respects R (call ev answer).
Proof.
  intros H. apply respects_bind; [by apply respects_modify|].
  intros _. destruct answer; [apply respects_ret|apply respects_raise].
Qed.

End monad_facts.

(** One step of a proof that a function respects a relation: it follows the
    shape of the code. *)
Ltac respects_step :=
  lazymatch goal with
  | |- sync_props.respects _ (explorebis.bind _ _) =>
      apply respects_bind; try exact _; [|intros ?]
  | |- sync_props.respects _ (explorebis.try_except _ _ _) =>
      apply respects_try; try exact _; [|intros ?]
  | |- sync_props.respects _ (explorebis.ret _) =>
      apply respects_ret; exact _
  | |- sync_props.respects _ (explorebis.raise _) =>
      apply respects_raise; exact _
  | |- sync_props.respects _ (explorebis.get _) =>
      apply respects_get; exact _
  | |- sync_props.respects _ (explorebis.json_load _) =>
      apply respects_json_load; exact _
  | |- sync_props.respects _ (explorebis.call _ _) =>
      apply respects_call; try exact _
  | |- sync_props.respects _ (explorebis.modify _) =>
      apply respects_modify
  | |- sync_props.respects _ (match ?x with _ => _ end) => destruct x
  end.

Ltac respects_walk :=
  unfold explorebis.emit, explorebis.app_log, explorebis.sleep;
  repeat respects_step.

Section function_facts.
Import explorebis sync_props.

(** Any relation that every trace event other than a price request and no
    other change of state can break. *)
Context (R : state → state → Prop) `{!Reflexive R} `{!Transitive R}.
Hypothesis R_event : ∀ ev s, not_http_get ev → R s (add_event ev s).

Lemma cmc_alt_respects message : respects R (cmc_alt message).
Proof. unfold cmc_alt. respects_walk; intros; by apply R_event. Qed.

Lemma get_cmc_info_file_respects w alt_curr testmess this_dev_state :
  respects R (get_cmc_info w alt_curr testmess false this_dev_state).
Proof.
  unfold get_cmc_info. respects_walk; try apply cmc_alt_respects;
    intros; by apply R_event.
Qed.

Lemma get_message_info_respects c w : respects R (get_message_info c w).
Proof. unfold get_message_info. respects_walk; intros; by apply R_event. Qed.

Lemma get_status_info_respects c w : respects R (get_status_info c w).
Proof. unfold get_status_info. respects_walk; intros; by apply R_event. Qed.

Lemma get_block_info_respects w b : respects R (get_block_info w b).
Proof. unfold get_block_info. respects_walk; intros; by apply R_event. Qed.

Lemma get_wallet_servers_respects w : respects R (get_wallet_servers w).
Proof. unfold get_wallet_servers. respects_walk; intros; by apply R_event. Qed.

Lemma get_mem_tx_no_respects c w : respects R (get_mem_tx_no c w).
Proof. unfold get_mem_tx_no. respects_walk; intros; by apply R_event. Qed.

Lemma get_50_respects w : respects R (get_50 w).
Proof. unfold get_50. respects_walk; intros; by apply R_event. Qed.

End function_facts.

Section sync_facts.
Import explorebis sync_props sync_samples.

#[local] Instance grows_by_refl P : Reflexive (grows_by P).
Proof. intros s. exists []. by rewrite app_nil_r. Qed.

#[local] Instance grows_by_trans P : Transitive (grows_by P).
Proof.
  intros s1 s2 s3 (e1 & H1 & F1) (e2 & H2 & F2). exists (e1 ++ e2)%list.
  split; [by rewrite H2, H1, app_assoc|by apply Forall_app].
Qed.

#[local] Instance keeps_refl {B} (field : state → B) : Reflexive (keeps field).
Proof. by intros s. Qed.

#[local] Instance keeps_trans {B} (field : state → B) : Transitive (keeps field).
Proof. unfold keeps. intros s1 s2 s3 H1 H2. congruence. Qed.

Lemma grows_by_event (P : event → Prop) ev s :
  P ev → grows_by P s (add_event ev s).
Proof. intros H. exists [ev]. split; [done|by constructor]. Qed.

Lemma grows_by_same_trace (P : event → Prop) s s' :
  trace s' = trace s → grows_by P s s'.
Proof. intros H. exists []. by rewrite app_nil_r. Qed.

Lemma grows_by_weaken (P Q : event → Prop) s s' :
  (∀ ev, P ev → Q ev) → grows_by P s s' → grows_by Q s s'.
Proof.
  intros HPQ (evs & H & F). exists evs. split; [done|].
  by eapply Forall_impl.
Qed.

Lemma new_events_grows {A} (m : M A) P s :
  grows_by P s (m s).2 →
  trace (m s).2 = (trace s ++ new_events m s)%list ∧ Forall P (new_events m s).
Proof.
  intros (evs & H & F). unfold new_events. rewrite H.
  by rewrite drop_app_length.
Qed.

(** C7 at the failing input.  When the node does not answer the status
    query, [get_status_info] raises UnboundLocalError from its own handler
    and sends nothing on [my_status]; the exception also leaves
    [test_connect], the handler of the connecting subscriber. *)
Theorem get_status_info_fetch_failure c w s :
  statusjson w = Raises RequestException →
  get_status_info c w s
  = (Raises UnboundLocalError, add_event (NodeQuery "statusjson") s) ∧
  test_connect c w s
  = (Raises UnboundLocalError, add_event (NodeQuery "statusjson") s).
Proof.
  intros H. unfold test_connect, get_status_info, try_except, bind, call, modify.
  rewrite H. done.
Qed.

Lemma get_status_info_fetch_failure_witness :
  (get_status_info c0 w_status_down (at_turn 1)).1 = Raises UnboundLocalError ∧
  trace (get_status_info c0 w_status_down (at_turn 1)).2
  = [NodeQuery "statusjson"].
Proof.
  destruct (get_status_info_fetch_failure c0 w_status_down (at_turn 1) eq_refl)
    as [H _].
  rewrite H. split; reflexivity.
Defined.

(** The part of C7 that holds: when the price request times out and
    dump_cmc.txt can be read, the persisted prices go out on [my_info]
    with the current message, and the call returns. *)
Lemma get_cmc_info_timeout w alt_curr testmess this_dev_state s x :
  coingecko w = http_raises RequestException →
  dump_cmc_txt s = Holds x →
  ∃ v l text,
    (get_cmc_info w alt_curr testmess true this_dev_state s).1 = Returns v ∧
    trace (get_cmc_info w alt_curr testmess true this_dev_state s).2
    = (trace s ++
       [HttpGet coingecko_url;
        Log ERROR "Coingecko Price Thread: Error {}";
        Emit (my_info {| btc := btc x; usd := usd x; fiat := fiat x;
                         toc := toc x; mess := testmess |});
        Log l text])%list.
Proof.
  intros Hw Hx.
  unfold get_cmc_info, cmc_alt, try_except, bind, call, modify, get, json_load,
    emit, app_log, ret, raise.
  rewrite Hw. cbn. rewrite Hx. cbn.
  destruct (price_info_txt s); cbn; eexists _, _, _;
    (split; [reflexivity|]); by rewrite <- !app_assoc.
Qed.

(** C6, as stated, fails: the turn in which the status query fails is
    followed by the next turn of the same loop. *)
Lemma loop_resumes_after_failure : ¬ stops_after_failure.
Proof.
  intros H.
  specialize (H c0 w_status_down [w_ok] (at_turn 1) UnboundLocalError eq_refl).
  apply (f_equal (λ r, length (trace r.2))) in H.
  vm_compute in H. discriminate H.
Qed.


Lemma hoare_bind_respects {A B} R `{!Transitive R} s0 (m : M A) (k : A → M B) Q :
  respects R m →
  (∀ err s, R s0 s → Q (Raises err) s) →
  (∀ a, hoare (R s0) (k a) Q) →
  hoare (R s0) (bind m k) Q.
Proof.
  intros Hm Hr Hk s Hs. unfold bind. specialize (Hm s).
  destruct (m s) as [[a|err] s'] eqn:E; cbn in *.
  - apply Hk. by etrans.
  - apply Hr. by etrans.
Qed.

Ltac keeps_side := intros; reflexivity.

Ltac grows_side :=
  intros;
  first [ apply grows_by_same_trace; reflexivity
        | apply grows_by_event; first [exact I | intros ?; discriminate] ].

Ltac unfold_functions :=
  unfold main_info_handler, get_message_info, get_cmc_info, cmc_alt,
    get_wallet_servers, get_status_info, get_mem_tx_no, get_block_info, get_50.

(** A turn whose body raises leaves the counter where it was. *)
Lemma main_info_body_raise_count c w s :
  raised (main_info_body c w s).1 → count (main_info_body c w s).2 = count s.
Proof.
  assert (H : hoare (keeps count s) (main_info_body c w)
                (λ r s', raised r → count s' = count s)).
  2:{ by apply H. }
  unfold main_info_body.
  do 10 (apply hoare_bind_respects;
        [ exact _
        | unfold_functions; respects_walk; keeps_side
        | intros; assumption
        | intros ? ]).
  intros s' _. unfold bind, sleep, modify.
  destruct (decide (a = 299)); cbn; intros [err [=]].
Qed.

(** C6, amended.  When the body of a turn raises, the turn itself returns:
    it logs the error and the restart notice, empties the slot, sleeps ten
    seconds, leaves the counter as it was, and the loop goes on with the
    next turn. *)
Theorem main_info_turn_failure c w ws s err :
  (main_info_body c w s).1 = Raises err →
  (main_info_turn c w s).1 = Returns tt ∧
  trace (main_info_turn c w s).2
  = (trace (main_info_body c w s).2 ++
     [Log ERROR "Error in main_info loop: {}";
      Log INFO "Restarting main_info loop in 10 seconds...";
      Sleep 10])%list ∧
  cmc_thread (main_info_turn c w s).2 = None ∧
  count (main_info_turn c w s).2 = count s ∧
  main_info_loop c (w :: ws) s = main_info_loop c ws (main_info_turn c w s).2.
Proof.
  intros Hraise.
  pose proof (main_info_body_raise_count c w s) as Hcount.
  cbn [main_info_loop]. unfold bind at 1, main_info_turn, try_except.
  revert Hraise Hcount.
  destruct (main_info_body c w s) as [[[]|err'] s1]; cbn;
    intros Hraise Hcount; [discriminate|].
  split; [done|]. split; [by rewrite <- !app_assoc|]. split; [done|].
  split; [|done]. apply Hcount. by exists err'.
Qed.

Lemma main_info_turn_failure_witness :
  cmc_thread (main_info_turn c0 w_status_down (at_turn 1)).2 = None ∧
  count (main_info_turn c0 w_status_down (at_turn 1)).2 = 1 ∧
  main_info_loop c0 [w_status_down; w_ok] (at_turn 1)
  = main_info_loop c0 [w_ok] (main_info_turn c0 w_status_down (at_turn 1)).2.
Proof.
  destruct (main_info_turn_failure c0 w_status_down [w_ok] (at_turn 1)
              UnboundLocalError eq_refl) as (_ & _ & H3 & H4 & H5).
  split; [exact H3|]. split; [exact H4|exact H5].
Defined.

Lemma main_info_turn_raises c w s err :
  (main_info_body c w s).1 = Raises err →
  main_info_turn c w s = main_info_handler err (main_info_body c w s).2.
Proof.
  unfold main_info_turn, try_except.
  destruct (main_info_body c w s) as [[[]|err'] s1]; cbn; intros [= ->]. done.
Qed.

(** A connection that finds the slot empty starts a loop. *)
Lemma test_connect_empty_slot c w s st :
  statusjson w = Returns st → cmc_thread s = None →
  (test_connect c w s).1 = Returns tt ∧
  cmc_thread (test_connect c w s).2 = Some background_task ∧
  ∃ e1 e2, trace (test_connect c w s).2
           = (trace s ++ e1 ++ StartBackgroundTask :: e2)%list.
Proof.
  intros Hst Hnone.
  unfold test_connect, get_status_info, try_except, bind, call, modify, get,
    emit, app_log, ret.
  rewrite Hst. cbn. rewrite Hnone. cbn. split; [done|]. split; [done|].
  eexists [_; _; _], [_]. by rewrite <- !app_assoc.
Qed.

(** After a failed turn the slot is empty although the loop goes on, so the
    next connection starts a second loop beside it. *)
Lemma second_loop_after_failure c w w' s err st :
  (main_info_body c w s).1 = Raises err → statusjson w' = Returns st →
  cmc_thread (test_connect c w' (main_info_turn c w s).2).2
  = Some background_task ∧
  ∃ e1 e2, trace (test_connect c w' (main_info_turn c w s).2).2
           = (trace (main_info_turn c w s).2
              ++ e1 ++ StartBackgroundTask :: e2)%list.
Proof.
  intros Hraise Hst.
  destruct (test_connect_empty_slot c w' (main_info_turn c w s).2 st Hst)
    as (_ & H2 & H3); [|done].
  by rewrite (main_info_turn_raises c w s err Hraise).
Qed.

Lemma starts_with_call_bind {A B} ev (answer : outcome exn A) (k : A → M B) :
  (∀ a, respects (grows_by any_event) (k a)) →
  starts_with ev (bind (call ev answer) k).
Proof.
  intros Hk s. unfold bind, call, modify, ret, raise.
  destruct answer as [a|err]; cbn.
  - destruct (Hk a (add_event ev s)) as (evs & H & _). exists evs.
    rewrite H. cbn. by rewrite <- app_assoc.
  - by exists [].
Qed.

Lemma starts_with_bind {A B} ev (m : M A) (k : A → M B) :
  starts_with ev m → (∀ a, respects (grows_by any_event) (k a)) →
  starts_with ev (bind m k).
Proof.
  intros Hm Hk s. unfold bind. destruct (Hm s) as (evs & H).
  destruct (m s) as [[a|err] s']; cbn in *; [|by exists evs].
  destruct (Hk a s') as (evs' & H' & _). exists (evs ++ evs')%list.
  rewrite H', H. by rewrite <- app_assoc.
Qed.

Lemma starts_with_try {A} ev (body : M A) catches handler :
  starts_with ev body → (∀ err, respects (grows_by any_event) (handler err)) →
  starts_with ev (try_except body catches handler).
Proof.
  intros Hm Hk s. unfold try_except. destruct (Hm s) as (evs & H).
  destruct (body s) as [[a|err] s']; cbn in *; [by exists evs|].
  destruct (catches err); [|by exists evs].
  destruct (Hk err s') as (evs' & H' & _). exists (evs ++ evs')%list.
  rewrite H', H. by rewrite <- app_assoc.
Qed.

Lemma starts_with_get_bind {A B} ev (field : state → A) (k : A → M B) :
  (∀ a, starts_with ev (k a)) → starts_with ev (bind (get field) k).
Proof. intros Hk s. apply Hk. Qed.

Lemma starts_with_new_events {A} ev (m : M A) s :
  starts_with ev m → ∃ evs, new_events m s = ev :: evs.
Proof.
  intros H. destruct (H s) as (evs & E). exists evs.
  unfold new_events. by rewrite E, drop_app_length.
Qed.

Lemma get_message_info_starts c w :
  starts_with (NodeQuery "annget") (get_message_info c w).
Proof.
  unfold get_message_info. apply starts_with_bind.
  - apply starts_with_try.
    + apply starts_with_call_bind. intros. respects_walk; grows_side.
    + intros. respects_walk; grows_side.
  - intros. respects_walk; grows_side.
Qed.

Lemma main_info_turn_starts c w :
  starts_with (NodeQuery "annget") (main_info_turn c w).
Proof.
  unfold main_info_turn. apply starts_with_try.
  - unfold main_info_body. apply starts_with_get_bind. intros n.
    apply starts_with_bind.
    + destruct (decide (n `mod` 60 = 0)); apply starts_with_bind;
        try apply get_message_info_starts;
        intros; unfold_functions; respects_walk; grows_side.
    + intros. unfold_functions. respects_walk; grows_side.
  - intros. unfold_functions. respects_walk; grows_side.
Qed.

Lemma try_except_at {A} R `{!Transitive R} (body : M A) catches handler s :
  R s (body s).2 → (∀ err, respects R (handler err)) →
  R s (try_except body catches handler s).2.
Proof.
  intros Hb Hh. unfold try_except.
  destruct (body s) as [[a|err] s']; cbn in *; [done|].
  destruct (catches err); [|done]. etrans; [exact Hb|apply Hh].
Qed.

(** Unless the counter is a multiple of 60 and dev mode is off, a turn adds
    no price request to the trace. *)
Lemma main_info_turn_quiet c w s :
  ¬ (count s `mod` 60 = 0 ∧ dev_state c = false) →
  grows_by not_http_get s (main_info_turn c w s).2.
Proof.
  intros Hn. unfold main_info_turn. apply try_except_at; [exact _| |].
  - unfold main_info_body.
    change (bind (get count) ?k s) with (k (count s) s). cbv beta.
    remember (count s) as n eqn:E. clear E. revert s.
    refine (respects_bind _ _ _ _ _).
    + destruct (decide (n `mod` 60 = 0)) as [Hz|Hz].
      * destruct (dev_state c) eqn:Hdev; [|by destruct Hn].
        unfold_functions. respects_walk; grows_side.
      * unfold_functions. respects_walk; grows_side.
    + intros. unfold_functions. respects_walk; grows_side.
  - intros. unfold_functions. respects_walk; grows_side.
Qed.

Lemma get_cmc_info_live_starts w alt_curr testmess this_dev_state :
  starts_with (HttpGet coingecko_url)
    (get_cmc_info w alt_curr testmess true this_dev_state).
Proof.
  unfold get_cmc_info. apply starts_with_try.
  - apply starts_with_call_bind. intros. unfold_functions.
    respects_walk; grows_side.
  - intros. unfold_functions. respects_walk; grows_side.
Qed.

Lemma bind_bind_at {A B C} (m : M A) (f : A → M B) (k : B → M C) s a s1 :
  m s = (Returns a, s1) → bind (bind m f) k s = bind (f a) k s1.
Proof. intros H. unfold bind. by rewrite H. Qed.

(** In a turn whose counter is a multiple of 60, with dev mode off, the
    price request is made as soon as the message step has returned. *)
Lemma main_info_turn_live c w s vip :
  count s `mod` 60 = 0 → dev_state c = false →
  (get_message_info c w s).1 = Returns vip →
  HttpGet coingecko_url ∈ new_events (main_info_turn c w) s.
Proof.
  intros Hz Hdev Hmsg.
  assert (Hbody : ∃ e1 e2, trace (main_info_body c w s).2
                           = (trace s ++ e1 ++ HttpGet coingecko_url :: e2)%list).
  { unfold main_info_body.
    change (bind (get count) ?k s) with (k (count s) s). cbv beta.
    destruct (decide (count s `mod` 60 = 0)); [|done]. rewrite Hdev.
    pose proof (get_message_info_respects (grows_by any_event)
                  (λ ev s _, grows_by_event any_event ev s I) c w s)
      as (e1 & E1 & _).
    destruct (get_message_info c w s) as [r s1] eqn:Em. cbn in Hmsg, E1.
    subst r. rewrite (bind_bind_at _ _ _ _ _ _ Em).
    lazymatch goal with
    | |- context [bind ?m ?k s1] =>
        assert (Hs : starts_with (HttpGet coingecko_url) (bind m k))
          by (apply starts_with_bind;
              [ apply get_cmc_info_live_starts
              | intros; unfold_functions; respects_walk; grows_side ])
    end.
    destruct (Hs s1) as (e2 & E2). exists e1, e2.
    rewrite E2, E1. by rewrite <- app_assoc. }
  destruct Hbody as (e1 & e2 & Eb).
  assert (Hturn : grows_by any_event (main_info_body c w s).2
                    (main_info_turn c w s).2).
  { unfold main_info_turn, try_except.
    destruct (main_info_body c w s) as [[a|err] s1]; cbn; [reflexivity|].
    assert (Hh : respects (grows_by any_event) (main_info_handler err))
      by (unfold_functions; respects_walk; grows_side).
    apply Hh. }
  destruct Hturn as (e3 & Et & _). unfold new_events.
  rewrite Et, Eb, <- !app_assoc, drop_app_length.
  apply elem_of_app. right. left.
Qed.



Lemma hoare_bind {A B} P (m : M A) (k : A → M B) Qm Q :
  hoare P m Qm →
  (∀ err s, Qm (Raises err) s → Q (Raises err) s) →
  (∀ a, hoare (Qm (Returns a)) (k a) Q) →
  hoare P (bind m k) Q.
Proof.
  intros Hm Hr Hk s Hs. unfold bind. specialize (Hm s Hs).
  destruct (m s) as [[a|err] s']; cbn in *; [by apply Hk|by apply Hr].
Qed.

Lemma hoare_try {A} P (body : M A) catches handler Qm Q :
  hoare P body Qm →
  (∀ a s, Qm (Returns a) s → Q (Returns a) s) →
  (∀ err s, Qm (Raises err) s → Q (Raises err) s) →
  (∀ err, hoare (Qm (Raises err)) (handler err) Q) →
  hoare P (try_except body catches handler) Q.
Proof.
  intros Hb Hret Hraise Hh s Hs. unfold try_except. specialize (Hb s Hs).
  destruct (body s) as [[a|err] s']; cbn in *; [by apply Hret|].
  destruct (catches err); [by apply Hh|by apply Hraise].
Qed.

Lemma on_defaults_kept {A} (m : M A) :
  respects (keeps price_places) m → hoare on_defaults m (λ _, on_defaults).
Proof.
  intros Hm s [H1 H2]. specialize (Hm s). unfold keeps, price_places in Hm.
  injection Hm as Hc Hp. split; congruence.
Qed.

(** Without network the price step returns the defaults, if it returns. *)
Lemma get_cmc_info_offline w alt_curr testmess mystate this_dev_state :
  offline w →
  hoare on_defaults (get_cmc_info w alt_curr testmess mystate this_dev_state)
    (λ r s', on_defaults s' ∧ ∀ v, r = Returns v → v = default_cmc_vals).
Proof.
  intros [err Hoff] s [Hc Hp].
  unfold get_cmc_info, cmc_alt, try_except, bind, call, modify, get,
    json_load, emit, app_log, ret, raise, on_defaults.
  rewrite Hoff.
  destruct mystate, this_dev_state, err; cbn;
    destruct (dump_cmc_txt s); cbn; rewrite ?Hp; cbn;
    (split; [done|intros v [=]; done]).
Qed.

Lemma main_info_turn_offline c w :
  offline w → hoare on_defaults (main_info_turn c w) (λ _, on_defaults).
Proof.
  intros Hoff. unfold main_info_turn.
  apply hoare_try with (Qm := λ _, on_defaults); [|done|done|].
  2:{ intros err. apply on_defaults_kept. unfold_functions.
      respects_walk; keeps_side. }
  unfold main_info_body.
  apply hoare_bind with (Qm := λ _, on_defaults); [by intros s Hs|done|].
  intros n.
  apply hoare_bind
    with (Qm := λ r s', on_defaults s' ∧ ∀ v, r = Returns v → v = default_cmc_vals).
  - destruct (decide (n `mod` 60 = 0));
      (apply hoare_bind with (Qm := λ _, on_defaults);
       [ apply on_defaults_kept; unfold_functions; respects_walk; keeps_side
       | by intros ? ? [? ?] || done
       | intros vip; destruct (dev_state c); by apply get_cmc_info_offline ]).
  - by intros err s [? _].
  - intros v. apply hoare_bind with (Qm := λ _, on_defaults).
    + intros s [[_ Hp] Hv]. rewrite (Hv v eq_refl). by split.
    + done.
    + intros _. apply on_defaults_kept. unfold_functions.
      respects_walk; keeps_side.
Qed.

Lemma main_info_loop_offline c ws :
  Forall offline ws → hoare on_defaults (main_info_loop c ws) (λ _, on_defaults).
Proof.
  induction 1 as [|w ws Hw _ IH]; cbn [main_info_loop]; [by intros s Hs|].
  apply hoare_bind with (Qm := λ _, on_defaults);
    [by apply main_info_turn_offline|done|by intros _].
Qed.

(** C10. When price_info.txt is missing or cannot be parsed at start, the
    price mapping in memory becomes the fixed default mapping, which has a
    value for each of BTC, USD, EUR, GBP, CNY and AUD, and the file is
    rewritten with it; and as long as the price service cannot be reached,
    the mapping in memory is still that default after any number of turns
    of the loop. *)
Theorem startup_defaults s :
  price_info_txt s = Absent ∨ price_info_txt s = Unparseable →
  (startup s).1 = Returns tt ∧
  cmc_vals (startup s).2 = default_cmc_vals ∧
  price_info_txt (startup s).2 = Holds default_cmc_vals ∧
  covers_supported (cmc_vals (startup s).2) ∧
  ∀ c ws, Forall offline ws →
    cmc_vals (main_info c ws (startup s).2).2 = default_cmc_vals.
Proof.
  intros Hfile.
  assert (Hs : (startup s).1 = Returns tt ∧ on_defaults (startup s).2).
  { unfold startup, try_except, bind, get, json_load, modify, app_log, raise.
    destruct Hfile as [-> | ->]; cbn; by repeat split. }
  destruct Hs as [Hret [Hc Hp]].
  split; [done|]. split; [done|]. split; [done|]. split.
  - rewrite Hc. apply (bool_decide_unpack _). vm_compute. exact I.
  - intros c ws Hws. unfold main_info.
    change (bind (modify ?f) ?k ?x) with (k tt (f x)). cbv beta.
    change (bind (modify ?f) ?k ?x) with (k tt (f x)). cbv beta.
    change (bind (modify ?f) ?k ?x) with (k tt (f x)). cbv beta.
    apply (main_info_loop_offline c ws Hws). by split.
Qed.

Lemma startup_defaults_witness :
  covers_supported (cmc_vals (startup fresh).2) ∧
  cmc_vals (main_info c0 [w_timeout; w_timeout] (startup fresh).2).2
  = default_cmc_vals.
Proof.
  destruct (startup_defaults fresh) as (_ & _ & _ & H4 & H5); [by left|].
  split; [exact H4|]. apply H5.
  repeat constructor; by exists RequestException.
Defined.

End sync_facts.

(** * Part II.c  The start race *)

Section singleton_facts.
Import singleton singleton_props singleton_samples.

Lemma total_insert f (l : list pc) i p q :
  l !! i = Some p → (total f (<[i:=q]> l) + f p = total f l + f q)%nat.
Proof.
  unfold total. revert i. induction l as [|x l IH]; intros [|i] H;
    simplify_eq/=; [lia|]. specialize (IH i H). simpl in *. lia.
Qed.

Lemma total_two f (l : list pc) i j p q :
  f at_status = 0%nat →
  l !! i = Some p → l !! j = Some q → i ≠ j → (f p + f q ≤ total f l)%nat.
Proof.
  intros Hf Hi Hj Hne.
  pose proof (total_insert f l i p at_status Hi) as H1.
  assert (Hj' : <[i:=at_status]> l !! j = Some q)
    by by rewrite list_lookup_insert_ne.
  pose proof (total_insert f _ j q at_status Hj') as H2. lia.
Qed.

Lemma total_replicate f n p : total f (replicate n p) = (n * f p)%nat.
Proof. unfold total. induction n as [|n IH]; cbn; [done|]. rewrite IH. lia. Qed.

Lemma total_all_one f (l : list pc) :
  Forall (λ p, f p = 1%nat) l → total f l = length l.
Proof.
  unfold total. induction 1 as [|p l Hp _ IH]; cbn; [done|]. rewrite IH, Hp. done.
Qed.

Lemma lookup_insert_cases (l : list pc) i j p q r :
  l !! i = Some p → <[i:=q]> l !! j = Some r →
  (j = i ∧ r = q) ∨ (j ≠ i ∧ l !! j = Some r).
Proof.
  intros Hi Hj. destruct (decide (j = i)) as [->|Hne].
  - left. split; [done|].
    rewrite list_lookup_insert_eq in Hj by (by eapply lookup_lt_Some).
    by injection Hj.
  - right. split; [done|]. by rewrite list_lookup_insert_ne in Hj.
Qed.

#[local] Arguments total : simpl never.

Lemma initial_invariant n : invariant n (initial n).
Proof.
  split; cbn.
  - apply length_replicate.
  - by rewrite total_replicate, Nat.mul_0_r.
  - intros i [? _]%lookup_replicate. done.
  - intros i [? _]%lookup_replicate. done.
  - done.
  - done.
  - by rewrite total_replicate, Nat.mul_0_r.
Qed.

Lemma step_invariant n i status_ok σ σ' :
  invariant n σ → step i status_ok σ = Some σ' → invariant n σ'.
Proof.
  intros [Hlen Hlock Hsp Hrp Hslot Hemp Hcnt]. unfold step.
  destruct (handlers σ !! i) as [p|] eqn:Hi; [|done].
  pose proof (total_insert in_guarded_block (handlers σ) i p) as Tg.
  pose proof (total_insert past_branch (handlers σ) i p) as Tp.
  pose proof (lookup_insert_cases (handlers σ) i) as Hcases.
  destruct p; try done.
  - (* the status push *)
    intros [= <-]. specialize (Tg (if status_ok then at_lock else failed) Hi).
    specialize (Tp (if status_ok then at_lock else failed) Hi).
    split; cbn.
    + by rewrite length_insert.
    + rewrite <- Hlock. destruct status_ok; cbn in Tg; lia.
    + intros j Hj. destruct (Hcases j _ _ _ Hi Hj) as [[_ E]|[_ E]]; [|eauto].
      by destruct status_ok.
    + intros j Hj. destruct (Hcases j _ _ _ Hi Hj) as [[_ E]|[_ E]]; [|eauto].
      by destruct status_ok.
    + done.
    + done.
    + rewrite Hcnt. destruct status_ok; cbn in Tp; lia.
  - (* taking the lock *)
    destruct (lock_held σ) eqn:Hl; [done|]. intros [= <-].
    specialize (Tg at_check Hi). specialize (Tp at_check Hi).
    split; cbn.
    + by rewrite length_insert.
    + cbn in Tg. lia.
    + intros j Hj. destruct (Hcases j _ _ _ Hi Hj) as [[_ E]|[_ E]]; [done|eauto].
    + intros j Hj. destruct (Hcases j _ _ _ Hi Hj) as [[_ E]|[_ E]]; [done|eauto].
    + done.
    + done.
    + rewrite Hcnt. cbn in Tp. lia.
  - (* the test of the slot *)
    intros [= <-].
    specialize (Tg (match cmc_thread σ with None => at_spawn | Some _ => at_replay end) Hi).
    specialize (Tp (match cmc_thread σ with None => at_spawn | Some _ => at_replay end) Hi).
    split; cbn.
    + by rewrite length_insert.
    + rewrite <- Hlock. destruct (cmc_thread σ); cbn in Tg; lia.
    + intros j Hj. destruct (Hcases j _ _ _ Hi Hj) as [[_ E]|[_ E]]; [|eauto].
      by destruct (cmc_thread σ).
    + intros j Hj. destruct (Hcases j _ _ _ Hi Hj) as [[_ E]|[_ E]]; [|eauto].
      by destruct (cmc_thread σ).
    + done.
    + done.
    + rewrite Hcnt. destruct (cmc_thread σ); cbn in Tp; lia.
  - (* starting the loop *)
    intros [= <-]. specialize (Tg at_release Hi). specialize (Tp at_release Hi).
    pose proof (Hsp i Hi) as Hnone.
    split; cbn.
    + by rewrite length_insert.
    + rewrite <- Hlock. cbn in Tg. lia.
    + intros j Hj. destruct (Hcases j _ _ _ Hi Hj) as [[_ E]|[Hne E]]; [done|].
      pose proof (total_two in_guarded_block _ _ _ _ _ eq_refl Hi E (not_eq_sym Hne)) as T2.
      cbn in T2. destruct (lock_held σ); lia.
    + done.
    + rewrite Hslot, Hnone. done.
    + done.
    + cbn in Tp. lia.
  - (* the replay *)
    intros [= <-]. specialize (Tg at_release Hi). specialize (Tp at_release Hi).
    split; cbn.
    + by rewrite length_insert.
    + rewrite <- Hlock. cbn in Tg. lia.
    + intros j Hj. destruct (Hcases j _ _ _ Hi Hj) as [[_ E]|[_ E]]; [done|eauto].
    + intros j Hj. destruct (Hcases j _ _ _ Hi Hj) as [[_ E]|[_ E]]; [|eauto].
      by apply (Hrp i).
    + done.
    + intros Hnone. by destruct (Hrp i Hi).
    + cbn in Tp. lia.
  - (* leaving the guarded block *)
    intros [= <-]. specialize (Tg finished Hi). specialize (Tp finished Hi).
    split; cbn.
    + by rewrite length_insert.
    + cbn in Tg. destruct (lock_held σ); lia.
    + intros j Hj. destruct (Hcases j _ _ _ Hi Hj) as [[_ E]|[_ E]]; [done|eauto].
    + intros j Hj. destruct (Hcases j _ _ _ Hi Hj) as [[_ E]|[_ E]]; [done|eauto].
    + done.
    + done.
    + rewrite Hcnt. cbn in Tp. lia.
Qed.

Lemma run_invariant n schedule σ σ' :
  invariant n σ → run schedule σ = Some σ' → invariant n σ'.
Proof.
  revert σ. induction schedule as [|[i ok] rest IH]; intros σ Hinv; cbn.
  - by intros [= <-].
  - destruct (step i ok σ) as [σ1|] eqn:Hstep; [|done].
    apply IH. by eapply step_invariant.
Qed.



End singleton_facts.

(** * Part III.a  More facts about toolsdb.py *)

Section toolsdb_more.
Import toolsdb toolsdb_run props toolsdb_props samples.

Lemma lookup_insert_or_ignore {V} (rows : list (string * V)) t k :
  insert_or_ignore rows t !! k
  = match t !! k with Some v => Some v | None => first_row k rows end.
Proof.
  unfold insert_or_ignore. revert t.
  induction rows as [|[a v] rows IH]; intros t; cbn [foldl first_row fst snd].
  - by destruct (t !! k).
  - rewrite IH. destruct (t !! a) eqn:Ha.
    + destruct (decide (a = k)) as [->|Hne]; [by rewrite Ha|done].
    + destruct (decide (a = k)) as [->|Hne].
      * by rewrite lookup_insert_eq, Ha.
      * by rewrite lookup_insert_ne.
Qed.

Lemma lookup_delete_all {V} (addresses : list string) (t : gmap string V) k :
  delete_all addresses t !! k
  = if decide (k ∈ addresses) then None else t !! k.
Proof.
  destruct (decide (k ∈ addresses)).
  - by apply lookup_delete_all_in.
  - by apply lookup_delete_all_notin.
Qed.

Lemma first_row_collect_rows e addresses k :
  first_row k (collect_rows e addresses).1
  = (if decide (k ∈ addresses) then rich_row_of e k else None) ∧
  first_row k (collect_rows e addresses).2
  = (if decide (k ∈ addresses) then miner_row_of e k else None).
Proof.
  induction addresses as [|addr rest [IH1 IH2]]; [done|].
  cbn [collect_rows]. destruct (collect_rows e rest) as [rich miner].
  cbn [fst snd] in IH1, IH2.
  assert (Hcons : ∀ {V} (x y : option V),
            (if decide (k ∈ addr :: rest) then x else y)
            = if decide (addr = k) then x
              else if decide (k ∈ rest) then x else y).
  { intros V x y. destruct (decide (addr = k)) as [->|Hne].
    - rewrite decide_True; [done|left].
    - destruct (decide (k ∈ rest)).
      + rewrite decide_True; [done|by right].
      + rewrite decide_False; [done|].
        intros [?|?]%elem_of_cons; congruence. }
  rewrite !Hcons.
  destruct (refresh e addr) as [rec|] eqn:Hr; cbn [fst snd].
  - split.
    + destruct (float_gt_int (record_4 rec) (bis_limit e)) eqn:Hgt;
        cbn [first_row fst snd].
      * destruct (decide (addr = k)) as [->|Hne]; [|exact IH1].
        unfold rich_row_of. by rewrite Hr, Hgt.
      * rewrite IH1. destruct (decide (addr = k)) as [->|Hne]; [|done].
        unfold rich_row_of. rewrite Hr, Hgt. by destruct (decide (k ∈ rest)).
    + destruct (float_gt_int (record_2 rec) 0) eqn:Hgt;
        cbn [first_row fst snd].
      * destruct (decide (addr = k)) as [->|Hne]; [|exact IH2].
        unfold miner_row_of. by rewrite Hr, Hgt.
      * rewrite IH2. destruct (decide (addr = k)) as [->|Hne]; [|done].
        unfold miner_row_of. rewrite Hr, Hgt. by destruct (decide (k ∈ rest)).
  - rewrite IH1, IH2. split; (destruct (decide (addr = k)) as [->|Hne]; [|done]).
    + unfold rich_row_of. rewrite Hr. by destruct (decide (k ∈ rest)).
    + unfold miner_row_of. rewrite Hr. by destruct (decide (k ∈ rest)).
Qed.

(** What a committed write phase leaves under every key of both tables. *)
Lemma write_phase_lookup e do_full addresses t k :
  richlist (write_phase e do_full addresses t) !! k
  = match (if do_full then richlist t !! k
           else if decide (k ∈ addresses) then None else richlist t !! k) with
    | Some v => Some v
    | None => if decide (k ∈ addresses) then rich_row_of e k else None
    end ∧
  minerlist (write_phase e do_full addresses t) !! k
  = match (if do_full then minerlist t !! k
           else if decide (k ∈ addresses) then None else minerlist t !! k) with
    | Some v => Some v
    | None => if decide (k ∈ addresses) then miner_row_of e k else None
    end.
Proof.
  unfold write_phase.
  destruct (first_row_collect_rows e addresses k) as [H1 H2].
  destruct (collect_rows e addresses) as [rich miner]. cbn [fst snd] in *.
  destruct do_full; cbn [richlist minerlist];
    rewrite !lookup_insert_or_ignore, H1, H2; [done|].
  by rewrite !lookup_delete_all.
Qed.

Lemma tables_eq (x y : tables) :
  richlist x = richlist y → minerlist x = minerlist y → x = y.
Proof. destruct x, y. cbn. by intros -> ->. Qed.

(** X1. The full scan returns each address once, and an address is in it
    exactly when some transaction with a non-zero amount or a non-zero
    reward names it as recipient. *)
Theorem gather_all_addresses_spec conn :
  NoDup (gather_all_addresses conn) ∧
  ∀ a, a ∈ gather_all_addresses conn ↔
       ∃ row, row ∈ conn ∧ recipient row = a ∧
              (¬ (amount row == 0)%Q ∨ ¬ (reward row == 0)%Q).
Proof.
  unfold gather_all_addresses. split; [apply NoDup_remove_dups|].
  intros a. rewrite elem_of_remove_dups.
  change (map recipient ?l) with (recipient <$> l).
  rewrite list_elem_of_fmap. unfold active.
  split.
  - intros (row & -> & [Hact Hin]%list_elem_of_filter).
    exists row. split; [done|]. split; [done|].
    apply orb_true_iff in Hact as [H|H]; apply negb_true_iff in H;
      [left|right]; by apply Qeq_bool_neq.
  - intros (row & Hin & <- & Hnz). exists row. split; [done|].
    apply list_elem_of_filter. split; [|done].
    apply orb_true_iff.
    destruct Hnz as [H|H]; [left|right]; apply negb_true_iff;
      apply not_true_is_false; intros E; by apply Qeq_bool_iff in E.
Qed.

(** X2. When a cycle commits, each processed address holds in each table
    exactly the row its fetch gives now, or no row when the fetch failed
    or the value is not above the bound; every other address holds what it
    held before an incremental cycle, and nothing after a full one. *)
Theorem updatedb_commit_content e do_full last_block db t' :
  updatedb e do_full last_block db = (Returns true, Some t') →
  ∃ addresses,
    gather e do_full last_block = Some addresses ∧
    ∀ k,
      (k ∈ addresses →
         richlist t' !! k = rich_row_of e k ∧
         minerlist t' !! k = miner_row_of e k) ∧
      (k ∉ addresses →
         richlist t' !! k
         = (if do_full then None else db ≫= λ t, richlist t !! k) ∧
         minerlist t' !! k
         = (if do_full then None else db ≫= λ t, minerlist t !! k)).
Proof.
  unfold updatedb, init_tools_db.
  destruct do_full; cbn [fst snd negb].
  - destruct (store_opens e); cbn [fst snd negb]; [|done].
    destruct (ledger_opens e); cbn [fst snd negb]; [|done].
    destruct (gather e true last_block) as [[|a0 l]|]; cbn [fst snd negb];
      [done| |done].
    destruct (store_writes e); cbn [fst snd negb]; [|done].
    intros [= <-]. eexists. split; [done|]. intros k.
    destruct (write_phase_lookup e true (a0 :: l) empty_tables k) as [H1 H2].
    rewrite H1, H2. cbn [richlist minerlist empty_tables].
    rewrite !lookup_empty. split; intros Hk.
    + by rewrite !decide_True.
    + by rewrite !decide_False.
  - destruct (ledger_opens e); cbn [fst snd negb]; [|done].
    destruct (gather e false last_block) as [[|a0 l]|]; cbn [fst snd negb];
      [done| |done].
    destruct (store_opens e); cbn [fst snd negb]; [|done].
    destruct db as [t|]; [|done].
    destruct (store_writes e); cbn [fst snd negb]; [|done].
    intros [= <-]. eexists. split; [done|]. intros k.
    destruct (write_phase_lookup e false (a0 :: l) t k) as [H1 H2].
    rewrite H1, H2. split; intros Hk.
    + by rewrite !decide_True.
    + rewrite !decide_False by done. cbn.
      by destruct (richlist t !! k), (minerlist t !! k).
Qed.

Lemma updatedb_commit_content_witness :
  ∃ t', updatedb env0 false 800 (Some tables0) = (Returns true, Some t') ∧
        richlist t' !! "alice"
        = Some {| balance := Finite (52 # 10); alias := "" |} ∧
        richlist t' !! "bob" = None.
Proof.
  eexists. split; [vm_compute; reflexivity|].
  edestruct (updatedb_commit_content env0 false 800 (Some tables0))
    as (addresses & Hg & Hk); [vm_compute; reflexivity|].
  vm_compute in Hg. injection Hg as <-.
  split.
  - destruct (Hk "alice") as [[H _] _]; [|exact H].
    right. left.
  - destruct (Hk "bob") as [[H _] _]; [|exact H].
    right. right. left.
Defined.

(** X3. The tables a write phase leaves do not depend on the order in which
    the addresses are listed. *)
Theorem write_phase_order_irrelevant e do_full addresses1 addresses2 t :
  addresses1 ≡ₚ addresses2 →
  write_phase e do_full addresses1 t = write_phase e do_full addresses2 t.
Proof.
  intros Hp.
  assert (Hin : ∀ k, k ∈ addresses1 ↔ k ∈ addresses2) by (intros k; by rewrite Hp).
  apply tables_eq; apply map_eq; intros k;
    destruct (write_phase_lookup e do_full addresses1 t k) as [H1 H2];
    destruct (write_phase_lookup e do_full addresses2 t k) as [H3 H4];
    [rewrite H1, H3|rewrite H2, H4];
    by rewrite !(decide_ext _ _ _ _ (Hin k)).
Qed.

Lemma write_phase_order_irrelevant_witness :
  write_phase env0 false ["alice"; "bob"] tables0
  = write_phase env0 false ["bob"; "alice"] tables0.
Proof.
  apply write_phase_order_irrelevant. apply Permutation_swap.
Defined.

(** What a committed full rebuild leaves under every key. *)
Lemma updatedb_commit_content_aux e last_block db t1 :
  updatedb e true last_block db = (Returns true, Some t1) →
  (∀ k, richlist t1 !! k
        = if decide (k ∈ gather_all_addresses (ledger e))
          then rich_row_of e k else None) ∧
  (∀ k, minerlist t1 !! k
        = if decide (k ∈ gather_all_addresses (ledger e))
          then miner_row_of e k else None).
Proof.
  unfold updatedb, init_tools_db. cbn [fst snd negb].
  destruct (store_opens e); cbn [fst snd negb]; [|done].
  destruct (ledger_opens e); cbn [fst snd negb]; [|done].
  unfold gather.
  destruct (gather_all_addresses (ledger e)) as [|a0 l]; cbn [fst snd negb];
    [done|].
  destruct (store_writes e); cbn [fst snd negb]; [|done].
  intros [= <-].
  split; intros k;
    destruct (write_phase_lookup e true (a0 :: l) empty_tables k) as [H1 H2];
    [rewrite H1|rewrite H2]; cbn [richlist minerlist empty_tables];
    by rewrite lookup_empty.
Qed.

(** X4. An incremental cycle run right after a committed full rebuild, on
    the same ledger, leaves the store as the rebuild left it, provided no
    touched address outside the full scan has a row to give. *)
Theorem incremental_after_full_is_stable e last_block last_block' db :
  (updatedb e true last_block db).1 = Returns true →
  (∀ addresses k, gather e false last_block' = Some addresses →
     k ∈ addresses → k ∉ gather_all_addresses (ledger e) →
     rich_row_of e k = None ∧ miner_row_of e k = None) →
  (updatedb e false last_block' (updatedb e true last_block db).2).2
  = (updatedb e true last_block db).2.
Proof.
  intros Hfull Hout.
  destruct (updatedb e true last_block db) as [r db1] eqn:Hu. cbn in Hfull.
  subst r. cbn [snd].
  assert (Hdb1 : ∃ t1, db1 = Some t1) .
  { revert Hu. unfold updatedb, init_tools_db. cbn [fst snd negb].
    destruct (store_opens e); cbn [fst snd negb]; [|done].
    destruct (ledger_opens e); cbn [fst snd negb]; [|done].
    destruct (gather e true last_block) as [[|a0 l]|]; cbn [fst snd negb];
      [done| |done].
    destruct (store_writes e); cbn [fst snd negb]; [|done].
    intros [= <-]. eauto. }
  destruct Hdb1 as [t1 ->].
  destruct (updatedb_commit_content_aux e last_block db t1 Hu) as [Hr Hm].
  unfold updatedb. cbn [fst snd negb].
  destruct (ledger_opens e); cbn [fst snd negb]; [|done].
  destruct (gather e false last_block') as [[|a0 l]|] eqn:Hg;
    cbn [fst snd negb]; [done| |done].
  destruct (store_opens e); cbn [fst snd negb]; [|done].
  destruct (store_writes e); cbn [fst snd negb]; [|done].
  f_equal. apply tables_eq; apply map_eq; intros k;
    destruct (write_phase_lookup e false (a0 :: l) t1 k) as [H1 H2];
    [rewrite H1|rewrite H2];
    (destruct (decide (k ∈ a0 :: l)) as [Hin|Hnin];
     [|by destruct (richlist t1 !! k), (minerlist t1 !! k)]).
  - rewrite Hr. destruct (decide (k ∈ gather_all_addresses (ledger e))); [done|].
    by destruct (Hout _ k eq_refl Hin) as [-> _].
  - rewrite Hm. destruct (decide (k ∈ gather_all_addresses (ledger e))); [done|].
    by destruct (Hout _ k eq_refl Hin) as [_ ->].
Qed.

Lemma incremental_after_full_is_stable_witness :
  (updatedb env0 false 800 (updatedb env0 true 0 None).2).2
  = (updatedb env0 true 0 None).2.
Proof.
  apply incremental_after_full_is_stable.
  - vm_compute. reflexivity.
  - intros addresses k Hg Hin Hnot. exfalso. apply Hnot.
    vm_compute in Hg. injection Hg as <-.
    assert (E : gather_all_addresses (ledger env0) = ["alice"; "bob"; "carol"])
      by (vm_compute; reflexivity).
    rewrite E. rewrite !elem_of_cons, elem_of_nil in Hin.
    rewrite !elem_of_cons, elem_of_nil. tauto.
Defined.

Lemma size_add_le (X : gset string) a : (size (X ∪ {[a]}) ≤ size X + 1)%nat.
Proof.
  rewrite size_union_alt.
  assert (size (({[a]} : gset string) ∖ X) ≤ 1)%nat; [|lia].
  rewrite <- (size_singleton (C := gset string) a).
  apply subseteq_size. by intros x [? _]%elem_of_difference.
Qed.

Lemma size_delta_step seen row : (size (delta_step seen row) ≤ size seen + 2)%nat.
Proof.
  unfold delta_step.
  pose proof (size_add_le seen (row_2 row)) as H2.
  pose proof (size_add_le seen (row_3 row)) as H3.
  pose proof (size_add_le (seen ∪ {[row_2 row]}) (row_3 row)) as H23.
  destruct (truthy (row_2 row) && negb (bool_decide (lower (row_2 row) ∈ sinks)));
    destruct (truthy (row_3 row)); lia.
Qed.

Lemma size_foldl_delta_step rows seen :
  (size (foldl delta_step seen rows) ≤ size seen + 2 * length rows)%nat.
Proof.
  revert seen. induction rows as [|row rows IH]; intros seen; cbn [foldl length].
  - lia.
  - specialize (IH (delta_step seen row)).
    pose proof (size_delta_step seen row). lia.
Qed.

(** X5. A scan of a window of W rows touches at most 2 W addresses, and
    never more than twice the number of rows in the ledger. *)
Theorem gather_delta_addresses_bound conn window :
  0 ≤ window →
  (length (gather_delta_addresses conn window) ≤ 2 * Z.to_nat window)%nat ∧
  (length (gather_delta_addresses conn window) ≤ 2 * length conn)%nat.
Proof.
  intros Hw. unfold gather_delta_addresses, select_recent.
  destruct (Z.ltb_spec window 0) as [?|_]; [lia|].
  change (length (elements ?X)) with (size X).
  pose proof (size_foldl_delta_step
                (take (Z.to_nat window) (merge_sort newer_eq conn)) ∅) as H.
  rewrite size_empty, length_take in H.
  rewrite (Permutation_length (merge_sort_Permutation newer_eq conn)) in H.
  lia.
Qed.

Lemma gather_delta_addresses_bound_witness :
  (length (gather_delta_addresses ledger0 1) ≤ 2)%nat.
Proof.
  destruct (gather_delta_addresses_bound ledger0 1) as [H _]; [lia|exact H].
Defined.



Lemma updatedb_incremental_raise e last_block db err :
  (updatedb e false last_block db).1 = Raises err →
  (updatedb e false last_block db).2 = db.
Proof.
  unfold updatedb. cbn [fst snd negb].
  destruct (ledger_opens e); cbn [fst snd negb]; [|done].
  destruct (gather e false last_block) as [[|a0 l]|]; cbn [fst snd negb];
    [done| |done].
  destruct (store_opens e); cbn [fst snd negb]; [|done].
  destruct db as [t|]; [|done].
  destruct (store_writes e); done.
Qed.

(** X7. When the update of a turn raises, the loop of [buildtoolsdb] ends
    there: the later turns do not run, the store is as it was before the
    turn, and blocks.txt already holds the new latest height. *)
Theorem buildtoolsdb_loop_failure e latest_here rest blocks db err :
  (updatedb e false (blocks - margin) db).1 = Raises err →
  buildtoolsdb_loop ((e, latest_here) :: rest) blocks db
  = (Raises err, latest_here, db).
Proof.
  intros H. cbn [buildtoolsdb_loop]. unfold buildtoolsdb_cycle.
  pose proof (updatedb_incremental_raise e (blocks - margin) db err H) as Hdb.
  destruct (updatedb e false (blocks - margin) db) as [r db']. cbn in H, Hdb.
  by subst.
Qed.

Lemma buildtoolsdb_loop_failure_witness :
  buildtoolsdb_loop [(env_ledger_down, 1050); (env0, 1060)] 1000 (Some tables0)
  = (Raises LedgerError, 1050, Some tables0).
Proof.
  apply buildtoolsdb_loop_failure. vm_compute. reflexivity.
Defined.

Lemma updatedb_keeps_rows_ok e do_full last_block db limit :
  bis_limit e = limit →
  (do_full = false → ∀ t, db = Some t → rows_ok limit t) →
  ∀ t', (updatedb e do_full last_block db).2 = Some t' → rows_ok limit t'.
Proof.
  intros <- Hinv t'. unfold updatedb, init_tools_db.
  destruct do_full; cbn [fst snd negb].
  - destruct (store_opens e); cbn [fst snd negb]; [|done].
    destruct (ledger_opens e); cbn [fst snd negb];
      [|intros [= <-]; apply rows_ok_empty].
    destruct (gather e true last_block) as [[|a0 l]|]; cbn [fst snd negb];
      try (intros [= <-]; apply rows_ok_empty).
    destruct (store_writes e); cbn [fst snd negb];
      intros [= <-]; [|apply rows_ok_empty].
    apply write_phase_rows_ok, rows_ok_empty.
  - destruct (ledger_opens e); cbn [fst snd negb]; [|by apply Hinv].
    destruct (gather e false last_block) as [[|a0 l]|]; cbn [fst snd negb];
      try (by apply Hinv).
    destruct (store_opens e); cbn [fst snd negb]; [|by apply Hinv].
    destruct db as [t|]; [|done].
    destruct (store_writes e); cbn [fst snd negb]; [|by apply Hinv].
    intros [= <-]. apply write_phase_rows_ok. by apply Hinv.
Qed.

Lemma buildtoolsdb_loop_rows_ok limit turns blocks db :
  Forall (λ turn, bis_limit turn.1 = limit) turns →
  (∀ t, db = Some t → rows_ok limit t) →
  ∀ t', (buildtoolsdb_loop turns blocks db).2 = Some t' → rows_ok limit t'.
Proof.
  intros Hturns. revert blocks db.
  induction Hturns as [|[e L] turns He _ IH]; intros blocks db Hdb t';
    cbn [buildtoolsdb_loop snd].
  - by apply Hdb.
  - unfold buildtoolsdb_cycle.
    pose proof (updatedb_keeps_rows_ok e false (blocks - margin) db limit He
                  (λ _, Hdb)) as Hstep.
    destruct (updatedb e false (blocks - margin) db) as [[r|err] db'];
      cbn [snd] in *.
    + by apply IH.
    + by apply Hstep.
Qed.



End toolsdb_more.

(** * Part III.b  Facts about the page helpers of explorebis.py *)

Section pages_facts.
Import explorebis explorebis_pages pages_props.

Lemma string_app_cons x (a b : string) : String x a ++ b = String x (a ++ b).
Proof. reflexivity. Qed.

Lemma string_app_nil_l (b : string) : "" ++ b = b.
Proof. reflexivity. Qed.

Lemma string_app_assoc (a b c : string) : (a ++ b) ++ c = a ++ b ++ c.
Proof.
  induction a as [|x a IH]; [done|]. by rewrite !string_app_cons, IH.
Qed.

Lemma string_app_nil_r (a : string) : a ++ "" = a.
Proof. induction a as [|x a IH]; [done|]. by rewrite string_app_cons, IH. Qed.

Lemma has_char_app ch (a b : string) :
  has_char ch (a ++ b) = has_char ch a || has_char ch b.
Proof.
  induction a as [|x a IH]; [done|].
  rewrite string_app_cons. cbn. by rewrite IH, orb_assoc.
Qed.

Lemma has_char_replace ch old new s :
  has_char ch (replace_char old new s)
  = (has_char ch s && negb (Ascii.eqb ch old)) || (has_char old s && has_char ch new).
Proof.
  induction s as [|x s IH]; cbn; [done|].
  destruct (Ascii.eqb_spec x old) as [->|Hne].
  - rewrite has_char_app, IH. cbn.
    destruct (Ascii.eqb_spec old ch) as [->|Hoc].
    + rewrite Ascii.eqb_refl. cbn. rewrite andb_false_r. cbn.
      by destruct (has_char ch new), (has_char ch s).
    + cbn. destruct (Ascii.eqb_spec ch old) as [->|_]; [done|]. cbn.
      rewrite !andb_true_r.
      by destruct (has_char ch new), (has_char ch s), (has_char old s).
  - cbn. rewrite IH.
    destruct (Ascii.eqb_spec x ch) as [->|Hxc]; cbn.
    + destruct (Ascii.eqb_spec ch old) as [->|_]; [done|]. done.
    + done.
Qed.

Lemma replace_char_absent old new s :
  has_char old s = false → replace_char old new s = s.
Proof.
  induction s as [|x s IH]; cbn; [done|].
  intros [Hx Hs]%orb_false_iff. rewrite Hx. by rewrite IH.
Qed.

(** X9. Whatever the input, the result of [escape_html] holds none of the
    characters +, < and >; a string without them is returned as it is; and
    escaping a second time changes nothing. *)
Theorem escape_html_spec s :
  has_char "+" (escape_html s) = false ∧
  has_char "<" (escape_html s) = false ∧
  has_char ">" (escape_html s) = false ∧
  (has_char "+" s = false → has_char "<" s = false → has_char ">" s = false →
   escape_html s = s) ∧
  escape_html (escape_html s) = escape_html s.
Proof.
  assert (H3 : has_char "+" (escape_html s) = false ∧
               has_char "<" (escape_html s) = false ∧
               has_char ">" (escape_html s) = false).
  { unfold escape_html. rewrite !has_char_replace. cbn.
    rewrite !andb_false_r, !andb_true_r, !orb_false_r. done. }
  assert (Hid : ∀ t, has_char "+" t = false → has_char "<" t = false →
                     has_char ">" t = false → escape_html t = t).
  { intros t Hp Hl Hg. unfold escape_html.
    by rewrite (replace_char_absent "+" _ t Hp), (replace_char_absent "<" _ t Hl),
      (replace_char_absent ">" _ t Hg). }
  destruct H3 as (Hp & Hl & Hg).
  split; [done|]. split; [done|]. split; [done|]. split; [apply Hid|].
  by apply Hid.
Qed.

Lemma escape_html_spec_witness : escape_html "abc" = "abc".
Proof.
  destruct (escape_html_spec "abc") as (_ & _ & _ & H & _).
  apply H; reflexivity.
Defined.

Lemma rich_data_from_spec f a c i :
  rich_data_from f a c i
  = imap (λ j r, cells_of f c (i + j) r) (filter (nonzero f) a).
Proof.
  revert i. induction a as [|r a IH]; intros i; [done|].
  cbn [rich_data_from]. destruct (zero_amount f r) eqn:Hz.
  - rewrite filter_cons_False by (unfold nonzero; congruence). apply IH.
  - rewrite filter_cons_True by done. rewrite imap_cons, Nat.add_0_r, IH.
    f_equal. apply imap_ext. intros j x _. cbn. f_equal. lia.
Qed.

Lemma rank_imap_cells f c n (l : list rich_tuple) :
  rank <$> imap (λ j r, cells_of f c (n + j) r) l
  = (λ j, pretty (n + j)%nat) <$> seq 0 (length l).
Proof.
  revert n. induction l as [|x l IH]; intros n; [done|].
  rewrite imap_cons. cbn [length seq fmap list_fmap]. f_equal.
  rewrite <- fmap_S_seq, <- list_fmap_compose.
  etrans; [|etrans; [exact (IH (S n))|]].
  - f_equal. apply imap_ext. intros j y _. cbn. f_equal. lia.
  - apply list_fmap_ext. intros _ j _. cbn. f_equal. lia.
Qed.

(** X10. [rich_data] keeps, in their order, the rows whose amount does not
    format to zero, and numbers them 1, 2, 3, ... without a gap. *)
Theorem rich_data_spec f a c :
  rich_data f a c = imap (λ j r, cells_of f c (S j) r) (filter (nonzero f) a) ∧
  rank <$> rich_data f a c
  = (λ j, pretty (S j)) <$> seq 0 (length (filter (nonzero f) a)).
Proof.
  assert (H : rich_data f a c
              = imap (λ j r, cells_of f c (1 + j) r) (filter (nonzero f) a))
    by apply rich_data_from_spec.
  split; [done|]. rewrite H. apply rank_imap_cells.
Qed.

Lemma rich_html_from_bound f a c i l send_back :
  ∃ html, rich_html_from f a c i (Some l) send_back = Returns html.
Proof.
  revert i l send_back. induction a as [|r a IH]; intros i l send_back; cbn.
  - by eexists.
  - destruct (zero_amount f r); apply IH.
Qed.

Lemma rich_html_from_nonzero f a c i locals send_back :
  Forall (nonzero f) a →
  rich_html_from f a c i locals send_back
  = Returns (send_back ++ join (row_html <$> rich_data_from f a c i)).
Proof.
  intros Ha. revert i locals send_back.
  induction Ha as [|r a Hr _ IH]; intros i locals send_back.
  - cbn. by rewrite string_app_nil_r.
  - cbn [rich_html_from rich_data_from]. rewrite Hr. rewrite IH.
    cbn [fmap list_fmap join foldr]. by rewrite string_app_assoc.
Qed.

(** X11. [rich_html] raises UnboundLocalError exactly when the first row of
    the list has an amount that formats to zero, and returns otherwise;
    when no row of the list does, what it returns is the rows of
    [rich_data], each rendered, one after the other. *)
Theorem rich_html_spec f a c :
  (rich_html f a c = Raises UnboundLocalError ↔
   ∃ r rest, a = r :: rest ∧ zero_amount f r = true) ∧
  ((∀ r rest, a = r :: rest → zero_amount f r = false) →
   ∃ html, rich_html f a c = Returns html) ∧
  (Forall (nonzero f) a →
   rich_html f a c = Returns (join (row_html <$> rich_data f a c))).
Proof.
  unfold rich_html, rich_data. split; [|split].
  - destruct a as [|r rest]; cbn.
    + split; [done|]. by intros (? & ? & ? & _).
    + destruct (zero_amount f r) eqn:Hz.
      * split; [eauto|done].
      * destruct (rich_html_from_bound f rest c 2 (cells_of f c 1 r)
                    ("" ++ row_html (cells_of f c 1 r))) as [html ->].
        split; [done|]. intros (? & ? & [= <- <-] & ?). congruence.
  - intros Hfirst. destruct a as [|r rest]; cbn; [by eexists|].
    rewrite (Hfirst r rest eq_refl). apply rich_html_from_bound.
  - intros Ha. by rewrite rich_html_from_nonzero.
Qed.

Lemma rich_html_spec_witness :
  rich_html pages_samples.f0 pages_samples.rows0 (1 # 1)%Q
  = Returns (join (row_html <$> rich_data pages_samples.f0 pages_samples.rows0 (1 # 1)%Q)).
Proof.
  apply rich_html_spec. repeat constructor.
Defined.

End pages_facts.

(** * Part III.c  More facts about the loop of explorebis.py *)

Section sync_more.
Import explorebis explorebis_pages sync_props sync_more_props sync_samples
  sync_more_samples.

#[local] Existing Instance grows_by_refl.
#[local] Existing Instance grows_by_trans.
#[local] Existing Instance keeps_refl.
#[local] Existing Instance keeps_trans.

#[local] Instance both_refl R1 R2 `{!Reflexive R1} `{!Reflexive R2} :
  Reflexive (both R1 R2).
Proof. intros s. by split. Qed.

#[local] Instance both_trans R1 R2 `{!Transitive R1} `{!Transitive R2} :
  Transitive (both R1 R2).
Proof. intros s1 s2 s3 [? ?] [? ?]. split; by etrans. Qed.

Lemma hoare_pre {A} (P P' : state → Prop) (m : M A) Q :
  (∀ s, P s → P' s) → hoare P' m Q → hoare P m Q.
Proof. intros HP H s Hs. by apply H, HP. Qed.

Lemma hoare_post {A} (P : state → Prop) (m : M A) (Q Q' : outcome exn A → state → Prop) :
  (∀ r s, Q r s → Q' r s) → hoare P m Q → hoare P m Q'.
Proof. intros HQ H s Hs. by apply HQ, H. Qed.

Lemma hoare_respects {A} R `{!Transitive R} s0 (m : M A) :
  respects R m → hoare (R s0) m (λ _, R s0).
Proof. intros Hm s Hs. etrans; [exact Hs|apply Hm]. Qed.

Lemma hoare_bind_get {A B} (field : state → A) (k : A → M B) P Q :
  (∀ a, hoare (λ s, P s ∧ field s = a) (k a) Q) →
  hoare P (bind (get field) k) Q.
Proof. intros H s Hs. by apply (H (field s) s). Qed.

Lemma hoare_assume {A} (φ : Prop) P (m : M A) Q :
  (φ → hoare P m Q) → hoare (λ s, P s ∧ φ) m Q.
Proof. intros H s [Hs Hφ]. by apply H. Qed.

Lemma hoare_try_any {A} P (body : M A) handler Qm Q :
  hoare P body Qm →
  (∀ a s, Qm (Returns a) s → Q (Returns a) s) →
  (∀ err, hoare (Qm (Raises err)) (handler err) Q) →
  hoare P (try_except body any_exception handler) Q.
Proof.
  intros Hb Hret Hh s Hs. unfold try_except. specialize (Hb s Hs).
  destruct (body s) as [[a|err] s']; cbn in *; [by apply Hret|by apply Hh].
Qed.

Ltac unfold_loop_functions :=
  unfold main_info_handler, get_message_info, get_cmc_info, cmc_alt,
    get_wallet_servers, get_status_info, get_mem_tx_no, get_block_info, get_50.

(** Closes the side goals of a walk: a setter or an event keeps the
    relation. *)
Ltac frame_side :=
  intros;
  repeat lazymatch goal with
         | |- both _ _ _ _ => split
         end;
  first [ reflexivity
        | apply grows_by_same_trace; reflexivity
        | apply grows_by_event; reflexivity ].

#[local] Abbreviation quiet_blocks :=
  (both (grows_by (λ ev, block_event ev = false)) (keeps block_pair)).

Lemma quiet_blocks_event ev s :
  block_event ev = false → quiet_blocks s (add_event ev s).
Proof. intros H. split; [by apply grows_by_event|reflexivity]. Qed.

Lemma get_block_info_same w h s :
  reports_height h w →
  quiet_blocks s (get_block_info w (block_int h) s).2 ∧
  ∀ v, (get_block_info w (block_int h) s).1 = Returns v → v = block_int h.
Proof.
  intros Hw. unfold get_block_info, try_except, bind, call, modify, app_log,
    ret, raise.
  destruct (blocklastjson w) as [b|err] eqn:Hb; cbn.
  - rewrite (Hw b Hb). rewrite decide_True by done. cbn. split.
    + etrans; apply quiet_blocks_event; reflexivity.
    + by intros v [= <-].
  - destruct (is_request_exception err); cbn; split.
    + etrans; apply quiet_blocks_event; reflexivity.
    + by intros v [= <-].
    + by apply quiet_blocks_event.
    + done.
Qed.

Lemma quiet_blocks_pair s0 s h :
  block_pair s0 = (block_int h, block_int h) → quiet_blocks s0 s →
  current_block s = block_int h ∧ last_block s = block_int h.
Proof.
  intros H0 [_ Hk]. unfold keeps in Hk. rewrite H0 in Hk.
  unfold block_pair in Hk. by injection Hk.
Qed.

Lemma main_info_turn_same_height c w h s0 :
  reports_height h w → block_pair s0 = (block_int h, block_int h) →
  hoare (quiet_blocks s0) (main_info_turn c w) (λ _, quiet_blocks s0).
Proof.
  intros Hw H0. unfold main_info_turn.
  apply hoare_try with (Qm := λ _, quiet_blocks s0); [|done|done|].
  2:{ intros err. apply hoare_respects; [exact _|].
      unfold_loop_functions. respects_walk; frame_side. }
  unfold main_info_body.
  do 6 (apply hoare_bind_respects;
        [ exact _
        | unfold_loop_functions; respects_walk; frame_side
        | intros; assumption
        | intros ? ]).
  apply hoare_bind
    with (Qm := λ r s', quiet_blocks s0 s' ∧ ∀ v, r = Returns v → v = block_int h).
  - apply hoare_bind_get. intros b s [Hs Hb].
    destruct (quiet_blocks_pair s0 s h H0 Hs) as [Hc _].
    assert (b = block_int h) as -> by congruence.
    destruct (get_block_info_same w h s Hw) as [HK Hv].
    split; [by etrans|done].
  - by intros err s [? _].
  - intros b.
    apply hoare_pre with (P' := λ s, quiet_blocks s0 s ∧ b = block_int h).
    { intros s [? Hv]. split; [done|by apply Hv]. }
    apply hoare_assume. intros ->.
    apply hoare_bind with (Qm := λ _, quiet_blocks s0); [|done|].
    { intros s Hs. destruct (quiet_blocks_pair s0 s h H0 Hs) as [Hc Hl].
      destruct Hs as [Hg Hk]. split; [exact Hg|].
      unfold keeps, block_pair in *. cbn. rewrite <- Hk. by rewrite Hc. }
    intros _. apply hoare_bind_get. intros lb.
    apply hoare_pre
      with (P' := λ s, quiet_blocks s0 s ∧ lb = block_int h).
    { intros s [Hs Hl]. split; [done|].
      destruct (quiet_blocks_pair s0 s h H0 Hs) as [_ ?]. congruence. }
    apply hoare_assume. intros ->. rewrite decide_False by (intros H; by apply H).
    apply hoare_respects; [exact _|]. respects_walk; frame_side.
Qed.

Lemma main_info_loop_same_height c ws h s0 :
  Forall (reports_height h) ws →
  block_pair s0 = (block_int h, block_int h) →
  hoare (quiet_blocks s0) (main_info_loop c ws) (λ _, quiet_blocks s0).
Proof.
  intros Hws H0. induction Hws as [|w ws Hw _ IH]; cbn [main_info_loop].
  - by intros s Hs.
  - apply hoare_bind with (Qm := λ _, quiet_blocks s0);
      [by apply (main_info_turn_same_height c w h)|done|by intros _].
Qed.

(** X12. While the node keeps reporting the height the loop already holds
    in both of its block variables, no turn sends [my_latest] or
    [my_transactions], however many turns run, and both variables stay at
    that height. *)
Theorem same_height_publishes_nothing c ws s h :
  current_block s = block_int h → last_block s = block_int h →
  Forall (reports_height h) ws →
  Forall (λ ev, block_event ev = false) (new_events (main_info_loop c ws) s) ∧
  current_block (main_info_loop c ws s).2 = block_int h ∧
  last_block (main_info_loop c ws s).2 = block_int h.
Proof.
  intros Hc Hl Hws.
  assert (H0 : block_pair s = (block_int h, block_int h))
    by (unfold block_pair; by rewrite Hc, Hl).
  pose proof (main_info_loop_same_height c ws h s Hws H0 s ltac:(reflexivity))
    as HK.
  split; [|by apply (quiet_blocks_pair s)].
  destruct HK as [Hg _]. by apply new_events_grows in Hg as [_ ?].
Qed.

Lemma same_height_publishes_nothing_witness :
  Forall (λ ev, block_event ev = false)
    (new_events (main_info_loop c0 [w_ok; w_ok]) steady).
Proof.
  apply (same_height_publishes_nothing c0 [w_ok; w_ok] steady 1050);
    [reflexivity|reflexivity|].
  repeat constructor; by intros b [= <-].
Defined.

Lemma hoare_keeps {A B} (field : state → B) (v : B) (m : M A) :
  respects (keeps field) m →
  hoare (λ s, field s = v) m (λ _ s', field s' = v).
Proof. intros Hm s Hs. rewrite <- Hs. apply Hm. Qed.

Lemma main_info_body_count n c w :
  hoare (λ s, count s = n) (main_info_body c w)
    (λ r s', count s' = match r with
                        | Returns _ => if decide (n = 299) then 0 else n + 1
                        | Raises _ => n
                        end).
Proof.
  unfold main_info_body. apply hoare_bind_get. intros a.
  apply hoare_pre with (P' := λ s, count s = n ∧ a = n).
  { intros s [? ?]. split; congruence. }
  apply hoare_assume. intros ->.
  do 9 (apply hoare_bind with (Qm := λ _ s, count s = n);
        [ apply hoare_keeps; unfold_loop_functions; respects_walk; frame_side
        | by intros
        | intros ? ]).
  intros s Hs. unfold bind, modify, sleep.
  destruct (decide (n = 299)); by cbn.
Qed.

Lemma main_info_turn_count c w s :
  count (main_info_turn c w s).2
  = match (main_info_body c w s).1 with
    | Returns _ => if decide (count s = 299) then 0 else count s + 1
    | Raises _ => count s
    end.
Proof.
  pose proof (main_info_body_count (count s) c w s eq_refl) as H.
  unfold main_info_turn, try_except.
  destruct (main_info_body c w s) as [[a|err] s1]; cbn in *; done.
Qed.

Lemma main_info_loop_count_range c ws :
  hoare (λ s, 0 ≤ count s ≤ 299) (main_info_loop c ws)
    (λ _ s', 0 ≤ count s' ≤ 299).
Proof.
  induction ws as [|w ws IH]; cbn [main_info_loop]; [by intros s Hs|].
  apply hoare_bind with (Qm := λ _ s', 0 ≤ count s' ≤ 299);
    [|done|by intros _].
  intros s Hs. rewrite main_info_turn_count.
  destruct ((main_info_body c w s).1); [|done].
  destruct (decide (count s = 299)); lia.
Qed.

(** X13. The counter of the loop goes up by one, modulo 300, in a turn
    whose body returns, and stays where it is in a turn whose body raises;
    started by [main_info], it is between 0 and 299 after any number of
    turns. *)
Theorem main_info_counter c w ws s :
  (0 ≤ count s ≤ 299 →
   count (main_info_turn c w s).2
   = match (main_info_body c w s).1 with
     | Returns _ => (count s + 1) `mod` 300
     | Raises _ => count s
     end) ∧
  0 ≤ count (main_info c ws s).2 ≤ 299.
Proof.
  split.
  - intros Hs. rewrite main_info_turn_count.
    destruct ((main_info_body c w s).1); [|done].
    destruct (decide (count s = 299)) as [->|Hne]; [done|].
    rewrite Z.mod_small; lia.
  - unfold main_info.
    change (bind (modify ?f) ?k ?x) with (k tt (f x)). cbv beta.
    change (bind (modify ?f) ?k ?x) with (k tt (f x)). cbv beta.
    change (bind (modify ?f) ?k ?x) with (k tt (f x)). cbv beta.
    apply (main_info_loop_count_range c ws). cbn. lia.
Qed.

Lemma main_info_counter_witness :
  count (main_info_turn c0 w_ok (at_turn 299)).2 = 0 ∧
  count (main_info_turn c0 w_status_down (at_turn 299)).2 = 299.
Proof.
  split.
  - destruct (main_info_counter c0 w_ok [] (at_turn 299)) as [H _].
    rewrite H; [reflexivity|cbn; lia].
  - destruct (main_info_counter c0 w_status_down [] (at_turn 299)) as [H _].
    rewrite H; [reflexivity|cbn; lia].
Defined.

#[local] Abbreviation stuck_early :=
  (both (grows_by (λ ev, early_event ev = true)) (keeps price_store)).

Lemma stuck_early_event s0 s ev :
  early_event ev = true → stuck_early s0 s → stuck_early s0 (add_event ev s).
Proof.
  intros Hev Hs. etrans; [exact Hs|]. split; [by apply grows_by_event|reflexivity].
Qed.

Lemma stuck_early_no_dump s0 s : no_dump s0 → stuck_early s0 s → no_dump s.
Proof.
  intros H0 [_ Hk] x Hx. unfold keeps, price_store in Hk.
  injection Hk as Hd _ _. apply (H0 x). congruence.
Qed.

(** Without dump_cmc.txt and without prices from the service, the price
    step raises. *)
Lemma get_cmc_info_stuck w alt_curr testmess mystate this_dev_state s0 :
  no_dump s0 → no_quote w →
  hoare (stuck_early s0)
    (get_cmc_info w alt_curr testmess mystate this_dev_state)
    (λ r s', raised r ∧ stuck_early s0 s').
Proof.
  intros H0 Hw s Hs.
  pose proof (stuck_early_no_dump s0 s H0 Hs) as Hd.
  unfold get_cmc_info, cmc_alt, try_except, bind, call, modify, get,
    json_load, emit, app_log, ret, raise.
  destruct mystate; cbn.
  - destruct (coingecko w) as [err| |[prices|err] vals] eqn:Hc; cbn.
    + destruct (is_request_exception err); cbn.
      * destruct (dump_cmc_txt s) as [| |x] eqn:Hx; cbn;
          [| |by destruct (Hd x)];
          (split; [by eexists|]); by repeat apply stuck_early_event.
      * split; [by eexists|]. by repeat apply stuck_early_event.
    + split; [by eexists|]. by repeat apply stuck_early_event.
    + by destruct (Hw prices vals).
    + destruct (dump_cmc_txt s) as [| |x] eqn:Hx; cbn;
        [| |by destruct (Hd x)];
        (split; [by eexists|]); by repeat apply stuck_early_event.
  - destruct (dump_cmc_txt s) as [| |x] eqn:Hx; cbn;
      [| |by destruct (Hd x)];
      (split; [by eexists|]); by repeat apply stuck_early_event.
Qed.

Lemma main_info_turn_stuck c w s0 :
  no_dump s0 → no_quote w →
  hoare (stuck_early s0) (main_info_turn c w)
    (λ _ s', stuck_early s0 s' ∧ cmc_thread s' = None).
Proof.
  intros H0 Hw. unfold main_info_turn.
  apply hoare_try_any with (Qm := λ r s', raised r ∧ stuck_early s0 s').
  - unfold main_info_body. apply hoare_bind_get. intros n.
    apply hoare_pre with (P' := stuck_early s0); [by intros s [? _]|].
    apply hoare_bind with (Qm := λ r s', raised r ∧ stuck_early s0 s').
    + destruct (decide (n `mod` 60 = 0));
        (apply hoare_bind with (Qm := λ _, stuck_early s0);
         [ apply hoare_respects; [exact _|];
           unfold_loop_functions; respects_walk; frame_side
         | intros err s Hs; split; [by eexists|done]
         | intros vip; destruct (dev_state c);
           by apply get_cmc_info_stuck ]).
    + intros err s [_ H]. split; [by eexists|exact H].
    + intros a s [[err [=]] _].
  - by intros a s [[err [=]] _].
  - intros err s [_ Hs]. unfold main_info_handler, bind, app_log, modify, sleep.
    cbn. split; [|done]. etrans; [exact Hs|].
    split; [|reflexivity].
    eexists [_; _; _]. cbn.
    split; [by rewrite <- !app_assoc|by repeat constructor].
Qed.

Lemma main_info_loop_stuck c ws s0 :
  no_dump s0 → Forall no_quote ws →
  hoare (stuck_early s0) (main_info_loop c ws) (λ _, stuck_early s0).
Proof.
  intros H0 Hws. induction Hws as [|w ws Hw _ IH]; cbn [main_info_loop].
  - by intros s Hs.
  - apply hoare_bind with (Qm := λ _, stuck_early s0).
    + eapply hoare_post; [|by apply main_info_turn_stuck]. by intros r s [? _].
    + done.
    + by intros _.
Qed.

(** X14. As long as dump_cmc.txt cannot be loaded and the price service
    gives no prices, every turn of the loop fails in its price step at the
    latest and ends with the slot emptied: however many turns run, the node
    is asked for nothing but the announcement, nothing but toasts is sent,
    and the two price files and the price mapping stay as they were. *)
Theorem loop_stuck_without_dump c w ws s :
  no_dump s → no_quote w → Forall no_quote ws →
  cmc_thread (main_info_turn c w s).2 = None ∧
  Forall (λ ev, early_event ev = true) (new_events (main_info_loop c ws) s) ∧
  price_store (main_info_loop c ws s).2 = price_store s.
Proof.
  intros Hs Hw Hws. split.
  - by apply (main_info_turn_stuck c w s Hs Hw s).
  - pose proof (main_info_loop_stuck c ws s Hs Hws s ltac:(reflexivity))
      as [Hg Hk].
    split; [|exact Hk]. by apply new_events_grows in Hg as [_ ?].
Qed.

Lemma loop_stuck_without_dump_witness :
  Forall (λ ev, early_event ev = true)
    (new_events (main_info_loop c0 [w_timeout; w_timeout]) fresh).
Proof.
  apply (loop_stuck_without_dump c0 w_timeout [w_timeout; w_timeout] fresh).
  - by intros x.
  - by intros prices vals.
  - repeat constructor; by intros prices vals.
Defined.

#[local] Abbreviation no_status := (grows_by (λ ev, status_query ev = false)).

Lemma get_wallet_servers_down w err :
  xws w = Raises err →
  ∀ s, get_wallet_servers w s
       = (Raises UnboundLocalError,
          add_event (Log INFO "Wallet Servers Checked")
            (add_event (Emit (my_w_servers "0" ""))
               (add_event (NodeQuery "xws") s))).
Proof.
  intros H s.
  unfold get_wallet_servers, try_except, bind, call, modify, emit, app_log.
  by rewrite H.
Qed.

Lemma main_info_body_wallet_down c w err n s0 :
  n `mod` 12 = 0 → xws w = Raises err →
  hoare (λ s, no_status s0 s ∧ count s = n) (main_info_body c w)
    (λ r s', raised r ∧ no_status s0 s').
Proof.
  intros Hn Hx. unfold main_info_body. apply hoare_bind_get. intros a.
  apply hoare_pre with (P' := λ s, no_status s0 s ∧ a = n).
  { intros s [[? ?] ?]. split; [done|congruence]. }
  apply hoare_assume. intros ->.
  do 2 (apply hoare_bind_respects;
        [ exact _
        | unfold_loop_functions; respects_walk; frame_side
        | intros; split; [by eexists|assumption]
        | intros ? ]).
  rewrite decide_True by (by right).
  apply hoare_bind with (Qm := λ r s', raised r ∧ no_status s0 s').
  - apply hoare_bind with (Qm := λ r s', raised r ∧ no_status s0 s').
    + intros s Hs. rewrite (get_wallet_servers_down w err Hx). cbn.
      split; [by eexists|]. etrans; [exact Hs|].
      eexists [_; _; _]. cbn.
      split; [by rewrite <- !app_assoc|by repeat constructor].
    + intros e s [_ H]. split; [by eexists|exact H].
    + intros x s [[e [=]] _].
  - intros e s [_ H]. split; [by eexists|exact H].
  - intros x s [[e [=]] _].
Qed.

(** X15. In a turn whose counter is a multiple of 12, a failure of the
    wallet-server query makes the body of the turn raise, at that step at
    the latest: the turn never asks the node for its status. *)
Theorem wallet_failure_ends_turn c w err s :
  count s `mod` 12 = 0 → xws w = Raises err →
  raised (main_info_body c w s).1 ∧
  Forall (λ ev, status_query ev = false) (new_events (main_info_turn c w) s).
Proof.
  intros Hn Hx.
  destruct (main_info_body_wallet_down c w err (count s) s Hn Hx s)
    as [Hr Hb]; [by split|].
  split; [exact Hr|].
  assert (Hturn : no_status s (main_info_turn c w s).2).
  { unfold main_info_turn, try_except.
    destruct (main_info_body c w s) as [[a|e] s1]; cbn in *; [done|].
    etrans; [exact Hb|].
    assert (Hh : respects no_status (main_info_handler e))
      by (unfold_loop_functions; respects_walk; frame_side).
    apply Hh. }
  by apply new_events_grows in Hturn as [_ ?].
Qed.

Lemma wallet_failure_ends_turn_witness :
  raised (main_info_body c0 w_xws_down (at_turn 12)).1.
Proof.
  by destruct (wallet_failure_ends_turn c0 w_xws_down OtherException (at_turn 12))
    as [H _].
Defined.

Lemma get_cmc_info_from_files w alt_curr testmess d s x vals :
  dump_cmc_txt s = Holds x → price_info_txt s = Holds vals →
  (get_cmc_info w alt_curr testmess false d s).1 = Returns vals ∧
  Emit (my_info {| btc := btc x; usd := usd x; fiat := fiat x; toc := toc x;
                   mess := testmess |})
  ∈ new_events (get_cmc_info w alt_curr testmess false d) s.
Proof.
  intros Hx Hv.
  unfold new_events, get_cmc_info, cmc_alt, try_except, bind, call, modify, get,
    json_load, emit, app_log, ret, raise.
  rewrite Hx. cbn. rewrite Hv. destruct d; cbn; (split; [done|]);
    rewrite <- !app_assoc, drop_app_length; left.
Qed.

(** X16. What a successful live price fetch stores is what every later
    fallback gives back: the call returns the mapping of the fetch, leaves
    it in price_info.txt and the prices in dump_cmc.txt, and any later call
    that does not go to the service returns the same mapping and sends the
    same prices again, with the message of that later call. *)
Theorem live_price_round_trip w alt_curr testmess d s bt us fi vals :
  coingecko w = http_json (Returns (bt, us, fi)) (Returns vals) →
  (get_cmc_info w alt_curr testmess true d s).1 = Returns vals ∧
  dump_cmc_txt (get_cmc_info w alt_curr testmess true d s).2
  = Holds {| btc := bt; usd := us; fiat := fi; toc := alt_curr; mess := testmess |} ∧
  price_info_txt (get_cmc_info w alt_curr testmess true d s).2 = Holds vals ∧
  ∀ w' alt_curr' testmess' d',
    (get_cmc_info w' alt_curr' testmess' false d'
       (get_cmc_info w alt_curr testmess true d s).2).1 = Returns vals ∧
    Emit (my_info {| btc := bt; usd := us; fiat := fi; toc := alt_curr;
                     mess := testmess' |})
    ∈ new_events (get_cmc_info w' alt_curr' testmess' false d')
        (get_cmc_info w alt_curr testmess true d s).2.
Proof.
  intros Hw.
  assert (H : (get_cmc_info w alt_curr testmess true d s).1 = Returns vals ∧
              dump_cmc_txt (get_cmc_info w alt_curr testmess true d s).2
              = Holds {| btc := bt; usd := us; fiat := fi; toc := alt_curr;
                         mess := testmess |} ∧
              price_info_txt (get_cmc_info w alt_curr testmess true d s).2
              = Holds vals).
  { unfold get_cmc_info, try_except, bind, call, modify, emit, app_log, ret.
    rewrite Hw. by cbn. }
  destruct H as (H1 & H2 & H3).
  split; [done|]. split; [done|]. split; [done|].
  intros w' alt_curr' testmess' d'.
  apply (get_cmc_info_from_files w' alt_curr' testmess' d' _ _ vals H2 H3).
Qed.

Lemma live_price_round_trip_witness :
  (get_cmc_info w_timeout "GBP" "later" false false
     (get_cmc_info w_ok "GBP" "hello" true false fresh).2).1
  = Returns default_cmc_vals.
Proof.
  destruct (live_price_round_trip w_ok "GBP" "hello" false fresh
              "0.00000100" "0.050" "0.040" default_cmc_vals eq_refl)
    as (_ & _ & _ & H).
  apply H.
Defined.

(** X17. A connection that finds the slot taken starts no loop and leaves
    the slot as it is; it ends in NameError exactly when the transaction
    list has not been built yet, and otherwise returns. *)
Theorem test_connect_slot_taken c w s t st :
  cmc_thread s = Some t → statusjson w = Returns st →
  cmc_thread (test_connect c w s).2 = Some t ∧
  Forall (λ ev, spawn_event ev = false) (new_events (test_connect c w) s) ∧
  ((test_connect c w s).1 = Raises NameError ↔ txlist50 s = None) ∧
  (is_Some (txlist50 s) → (test_connect c w s).1 = Returns tt).
Proof.
  intros Hslot Hst.
  unfold new_events, test_connect, get_status_info, get_wallet_servers,
    try_except, bind, call, modify, get, json_load, emit, app_log, ret, raise.
  rewrite Hst. cbn. rewrite Hslot. cbn.
  destruct (dump_cmc_txt s); cbn; destruct (xws w); cbn;
    destruct (txlist50 s) as [d|]; cbn;
    (split; [done|]);
    (split; [rewrite <- !app_assoc, drop_app_length; by repeat constructor|]);
    (split; [split; intros [=]; done|]);
    first [by intros [? [=]] | done].
Qed.

Lemma test_connect_slot_taken_witness :
  (test_connect c0 w_ok (at_turn 1)).1 = Raises NameError ∧
  (test_connect c0 w_ok steady).1 = Returns tt.
Proof.
  split.
  - destruct (test_connect_slot_taken c0 w_ok (at_turn 1) background_task
                {| uptime := 60; fields := [] |} eq_refl eq_refl)
      as (_ & _ & H & _).
    by apply H.
  - destruct (test_connect_slot_taken c0 w_ok steady background_task
                {| uptime := 60; fields := [] |} eq_refl eq_refl)
      as (_ & _ & _ & H).
    apply H. by eexists.
Defined.


(** X19. When the secret in message.txt is not the configured one, the
    message step gives back no text from the file or from the node: if the
    announcement query returned or failed with a request error, it returns
    the empty message, with the dev-mode prefix when dev mode is on; any
    other error of the query leaves the function.  When message.txt is
    missing it raises. *)
Theorem get_message_info_guard c w s :
  (∀ m, message_txt s = Holds m → secret m ≠ app_secret c →
        (get_message_info c w s).1
        = match annget w with
          | Raises err =>
              if is_request_exception err
              then Returns (if dev_state c then "DEV MODE | " else "")
              else Raises err
          | Returns _ => Returns (if dev_state c then "DEV MODE | " else "")
          end) ∧
  (message_txt s = Absent → raised (get_message_info c w s).1).
Proof.
  split.
  - intros m Hm Hsec.
    unfold get_message_info, try_except, bind, call, modify, get, json_load,
      emit, app_log, ret, raise.
    destruct (annget w) as [ann|err]; cbn.
    + destruct (decide (ann ≠ "No announcement")); cbn; rewrite Hm; cbn;
        rewrite decide_False by done; cbn; by destruct (dev_state c).
    + destruct (is_request_exception err); cbn; [|done].
      rewrite Hm. cbn. rewrite decide_False by done. cbn.
      by destruct (dev_state c).
  - intros Hm.
    unfold get_message_info, try_except, bind, call, modify, get, json_load,
      emit, app_log, ret, raise.
    destruct (annget w) as [ann|err]; cbn.
    + destruct (decide (ann ≠ "No announcement")); cbn; rewrite Hm; by eexists.
    + destruct (is_request_exception err); cbn; [rewrite Hm|]; by eexists.
Qed.

Lemma get_message_info_guard_witness :
  (get_message_info c_rotated w_ok steady).1 = Returns "DEV MODE | " ∧
  raised (get_message_info c0 w_ok fresh).1.
Proof.
  split.
  - apply (proj1 (get_message_info_guard c_rotated w_ok steady)
             {| secret := "s3cret"; message := "hello" |});
      [reflexivity|discriminate].
  - apply (proj2 (get_message_info_guard c0 w_ok fresh)). reflexivity.
Defined.

End sync_more.

(** * Part III.d  More facts about the start race *)

Section singleton_more.
Import singleton singleton_props singleton_more_props singleton_samples.

Lemma total_ge f (l : list pc) i p :
  f at_status = 0%nat → l !! i = Some p → (f p ≤ total f l)%nat.
Proof.
  intros Hf Hi. pose proof (total_insert f l i p at_status Hi). lia.
Qed.

Lemma total_pos f (l : list pc) :
  (0 < total f l)%nat → ∃ i p, l !! i = Some p ∧ (0 < f p)%nat.
Proof.
  unfold total. induction l as [|x l IH]; cbn; [lia|].
  intros H. destruct (decide (0 < f x)%nat) as [Hx|Hx].
  - by exists 0%nat, x.
  - destruct IH as (i & p & Hi & Hp); [lia|]. by exists (S i), p.
Qed.

(** While the lock is held, some handler is inside the guarded block. *)
Lemma lock_holder n σ :
  invariant n σ → lock_held σ = true →
  ∃ i p, handlers σ !! i = Some p ∧ in_guarded_block p = 1%nat.
Proof.
  intros [_ Hlock _ _ _ _ _] Hl. rewrite Hl in Hlock.
  destruct (total_pos in_guarded_block (handlers σ)) as (i & p & Hi & Hp);
    [lia|].
  exists i, p. split; [done|]. destruct p; cbn in *; lia.
Qed.

(** A handler that has not ended leaves some handler able to move. *)
Lemma invariant_progress n σ i p :
  invariant n σ →
  handlers σ !! i = Some p → p ≠ finished → p ≠ failed →
  ∃ j status_ok σ', step j status_ok σ = Some σ'.
Proof.
  intros Hinv Hi Hfin Hfail.
  assert (Hin : ∀ j q, handlers σ !! j = Some q → in_guarded_block q = 1%nat →
                       ∃ σ', step j true σ = Some σ').
  { intros j q Hj Hq. unfold step. rewrite Hj.
    destruct q; cbn in Hq; try lia; by eexists. }
  destruct (decide (in_guarded_block p = 1%nat)) as [Hp|Hp].
  { destruct (Hin i p Hi Hp) as [σ' ?]. by exists i, true, σ'. }
  destruct (lock_held σ) eqn:Hl.
  - destruct (lock_holder n σ Hinv Hl) as (j & q & Hj & Hq).
    destruct (Hin j q Hj Hq) as [σ' ?]. by exists j, true, σ'.
  - exists i, true. unfold step. rewrite Hi, Hl.
    destruct p; cbn in Hp; try done; by eexists.
Qed.





Lemma step_remaining i status_ok σ σ' :
  step i status_ok σ = Some σ' →
  (total remaining (handlers σ') < total remaining (handlers σ))%nat.
Proof.
  unfold step. destruct (handlers σ !! i) as [p|] eqn:Hi; [|done].
  pose proof (total_insert remaining (handlers σ) i p) as T.
  destruct p; try done.
  - intros [= <-]. specialize (T (if status_ok then at_lock else failed) Hi).
    cbn [handlers]. destruct status_ok; cbn [remaining] in T; lia.
  - destruct (lock_held σ); [done|]. intros [= <-].
    specialize (T at_check Hi). cbn [handlers]. cbn [remaining] in T. lia.
  - intros [= <-].
    specialize (T (match cmc_thread σ with None => at_spawn | Some _ => at_replay end) Hi).
    cbn [handlers]. destruct (cmc_thread σ); cbn [remaining] in T; lia.
  - intros [= <-]. specialize (T at_release Hi).
    cbn [handlers]. cbn [remaining] in T. lia.
  - intros [= <-]. specialize (T at_release Hi).
    cbn [handlers]. cbn [remaining] in T. lia.
  - intros [= <-]. specialize (T finished Hi).
    cbn [handlers]. cbn [remaining] in T. lia.
Qed.

Lemma run_remaining schedule σ σ' :
  run schedule σ = Some σ' →
  (length schedule + total remaining (handlers σ')
   ≤ total remaining (handlers σ))%nat.
Proof.
  revert σ. induction schedule as [|[i ok] rest IH]; intros σ; cbn.
  - intros [= <-]. lia.
  - destruct (step i ok σ) as [σ1|] eqn:Hstep; [|done]. intros Hrun.
    specialize (IH _ Hrun). pose proof (step_remaining _ _ _ _ Hstep). lia.
Qed.

Lemma run_app a b σ :
  run (a ++ b) σ = run a σ ≫= run b.
Proof.
  revert σ. induction a as [|[i ok] a IH]; intros σ; cbn; [done|].
  destruct (step i ok σ); [apply IH|done].
Qed.

Lemma ended_or_not (l : list pc) :
  Forall (λ p, p = finished ∨ p = failed) l ∨
  ∃ i p, l !! i = Some p ∧ p ≠ finished ∧ p ≠ failed.
Proof.
  induction l as [|x l [IH|(i & p & Hi & Hp)]].
  - left. constructor.
  - destruct x;
      try (left; constructor; [by (left + right)|done]);
      right; eexists 0%nat, _; (split; [reflexivity|done]).
  - right. by exists (S i), p.
Qed.

Lemma completion_aux n m schedule σ :
  run schedule (initial n) = Some σ →
  (total remaining (handlers σ) ≤ m)%nat →
  ∃ rest σ', run (schedule ++ rest) (initial n) = Some σ' ∧
             Forall (λ p, p = finished ∨ p = failed) (handlers σ').
Proof.
  revert schedule σ. induction m as [|m IH]; intros schedule σ Hrun Hm;
    pose proof (run_invariant n schedule _ _ (initial_invariant n) Hrun) as Hinv.
  - destruct (ended_or_not (handlers σ)) as [Hall|(i & p & Hi & Hfin & Hfail)].
    + exists [], σ. by rewrite app_nil_r.
    + destruct (invariant_progress n σ i p Hinv Hi Hfin Hfail)
        as (j & ok & σ1 & Hstep).
      pose proof (step_remaining _ _ _ _ Hstep). lia.
  - destruct (ended_or_not (handlers σ)) as [Hall|(i & p & Hi & Hfin & Hfail)].
    + exists [], σ. by rewrite app_nil_r.
    + destruct (invariant_progress n σ i p Hinv Hi Hfin Hfail)
        as (j & ok & σ1 & Hstep).
      pose proof (step_remaining _ _ _ _ Hstep) as Hlt.
      assert (Hrun1 : run (schedule ++ [(j, ok)]) (initial n) = Some σ1).
      { rewrite run_app, Hrun. cbn. by rewrite Hstep. }
      destruct (IH _ _ Hrun1) as (rest & σ' & Hrest & Hall); [lia|].
      exists ((j, ok) :: rest), σ'. split; [|done].
      by rewrite <- app_assoc in Hrest.
Qed.



End singleton_more.
